(** * ThreadBuddies/chat: the asynchronous reader-writer lock and the
      io-loop continuation wrapper

    Shallow embedding of
    - [src/common/include/common/utils/AwaitableGuarded.h]
      (class [common::AwaitableGuarded<T>], its proxies and lock awaitables);
    - [src/server/include/server/utils/switch_to_io_loop.h]
      (class [server::resume_on_io_loop<AwaiterType>] and its awaiter).

    Conventions.  A C++ [int] is a [Z] in the range [INT_MIN..INT_MAX]; the
    read-modify-write operations of [std::atomic<int>] wrap around, the
    built-in [+] on [int] is undefined on overflow (modelled by [None]).
    Every atomic operation is one step of the interleaving semantics; what
    happens between two atomic operations of one task is decided by the
    trace of events. *)

From Stdlib Require Import ZArith Lia String.
From stdpp Require Import base option list gmap.

Local Open Scope Z_scope.

(** ** [std::atomic<int>] *)

Module Atomic.

Definition INT_MIN : Z := -2147483648.
Definition INT_MAX : Z := 2147483647.

Definition in_int (z : Z) : Prop := INT_MIN <= z <= INT_MAX.

(** Two's complement reduction into the range of [int]. *)
Definition wrap_int (z : Z) : Z := (z - INT_MIN) mod 2 ^ 32 + INT_MIN.

(** Built-in [a + b] on [int]: no value when the result overflows. *)
Definition int_add (a b : Z) : option Z :=
  let r := a + b in
  if (INT_MIN <=? r) && (r <=? INT_MAX) then Some r else None.

(** [m.load(order)]: the value read. *)
Definition load (st : Z) : Z := st.

(** [m.store(v, order)]: the new content. *)
Definition store (v : Z) (st : Z) : Z := v.

(** [m.fetch_sub(d, order)]: the value before, and the new content. *)
Definition fetch_sub (d : Z) (st : Z) : Z * Z := (st, wrap_int (st - d)).

(** [m.compare_exchange_strong(expected, desired, order)]: the result, the
    content of [expected] afterwards (it is passed by reference and receives
    the observed value on failure), and the new content of the atomic. *)
Definition compare_exchange_strong (expected desired st : Z) : bool * Z * Z :=
  if st =? expected then (true, expected, desired) else (false, st, st).

End Atomic.

(** ** The [co_await] protocol *)

Module Coroutine.

(** [co_await] asks the awaiter's [await_ready()] first: on [true] the
    coroutine goes on to [await_resume()] without suspending, on [false] it
    is suspended and [await_suspend(handle)] runs. *)
Definition co_await_suspends (await_ready : bool) : bool := negb await_ready.

End Coroutine.

(** ** [AwaitableGuarded<T>]: lock state, awaitables and proxies *)

Module Guarded.

(** Which of the two lock flavours an awaitable or a proxy belongs to:
    [SharedLockAwaitable]/[SharedProxy] or [UniqueLockAwaitable]/[UniqueProxy]. *)
Inductive mode := Shared | Unique.

Definition mode_eqb (a b : mode) : bool :=
  match a, b with
  | Shared, Shared | Unique, Unique => true
  | _, _ => false
  end.

(** A [std::shared_ptr<AwaitableGuarded<T>>].  The world below holds one
    resource, so a pointer is either empty or points to that resource. *)
Inductive shared_ptr := null | the_guarded.

(** Who is running [try_lock]: [await_ready] (the task is not suspended
    yet) or [spin] (the task is suspended, [spin] was queued in the loop). *)
Inductive caller := in_await_ready | in_spin.

(** Control point of a lock awaitable.
    - [Calling c]: [c] is about to enter [try_lock];
    - [Loaded c current]: shared only, [m_state.load] has returned [current]
      and the [if]/[compare_exchange_strong] has not run yet;
    - [Locked c]: [try_lock] returned [true]; [await_resume] has not run yet
      (it follows at once after [await_ready], or after the queued
      [h.resume()] when [spin] won);
    - [Resumed]: [await_resume] has built the proxy. *)
Inductive pc :=
| Calling (c : caller)
| Loaded (c : caller) (current : Z)
| Locked (c : caller)
| Resumed.

(** [LockAwaitableBase]: its [guarded] pointer and where it stands. *)
Record awaitable := {
  a_mode : mode;
  guarded : shared_ptr;
  a_pc : pc
}.

(** A [SharedProxy] or [UniqueProxy] object: its [m_guarded] member, and
    whether the object's lifetime has ended. *)
Record proxy := {
  p_mode : mode;
  m_guarded : shared_ptr;
  p_alive : bool
}.

(** One resource with everything that refers to it. *)
Record world := {
  m_state : Z;
  awaitables : list awaitable;
  proxies : list proxy
}.

(** [AwaitableGuarded::create]: [m_state{0}], nothing refers to it yet. *)
Definition create : world :=
  {| m_state := 0; awaitables := []; proxies := [] |}.

(** [lock_shared()] / [lock_unique()]: a fresh awaitable holding
    [shared_from_this()]; [co_await] starts with [await_ready]. *)
Definition lock_call (m : mode) : awaitable :=
  {| a_mode := m; guarded := the_guarded; a_pc := Calling in_await_ready |}.

(** [SharedLockAwaitable::try_lock], first atomic operation:
    [auto current = m_state.load(acquire)]. *)
Definition SharedLockAwaitable_try_lock_load (st : Z) : Z := Atomic.load st.

(** [SharedLockAwaitable::try_lock], the rest: the test [current >= 0] and
    the single [compare_exchange_strong(current, current + 1)], run against
    the content [st] the atomic has by then.  Result and new content. *)
Definition SharedLockAwaitable_try_lock_cas (current st : Z) : option (bool * Z) :=
  if 0 <=? current then
    match Atomic.int_add current 1 with
    | Some desired =>
        let '(ok, _, st') := Atomic.compare_exchange_strong current desired st in
        Some (ok, st')
    | None => None
    end
  else Some (false, st).

(** [UniqueLockAwaitable::try_lock]: [int expected = 0;] and one
    [compare_exchange_strong(expected, -1)]. *)
Definition UniqueLockAwaitable_try_lock (st : Z) : bool * Z :=
  let expected := 0 in
  let '(ok, _, st') := Atomic.compare_exchange_strong expected (-1) st in
  (ok, st').

(** What follows the return of [try_lock] in [await_ready] and in [spin]:
    on [true] the lock is held and the proxy is still to be built; on
    [false] [await_suspend] (after [await_ready]) or [spin] itself queues
    [spin] in the loop. *)
Definition after_try_lock (c : caller) (ok : bool) : pc :=
  if ok then Locked c else Calling in_spin.

(** [LockAwaitableBase::await_ready] returns what [try_lock] returned, and
    the coroutine is suspended exactly when that is [false]. *)
Definition LockAwaitableBase_await_ready (try_lock_result : bool) : bool :=
  try_lock_result.

Definition suspended (p : pc) : bool :=
  match p with
  | Calling in_spin | Loaded in_spin _ | Locked in_spin => true
  | _ => false
  end.

(** [~SharedProxy]: [if(m_guarded) m_state.fetch_sub(1, release)]. *)
Definition SharedProxy_dtor (p : shared_ptr) (st : Z) : Z :=
  match p with
  | the_guarded => snd (Atomic.fetch_sub 1 st)
  | null => st
  end.

(** [~UniqueProxy]: [if(m_guarded) m_state.store(0, release)]. *)
Definition UniqueProxy_dtor (p : shared_ptr) (st : Z) : Z :=
  match p with
  | the_guarded => Atomic.store 0 st
  | null => st
  end.

Definition proxy_dtor (p : proxy) (st : Z) : Z :=
  match p_mode p with
  | Shared => SharedProxy_dtor (m_guarded p) st
  | Unique => UniqueProxy_dtor (m_guarded p) st
  end.

(** [ProxyType(ProxyType&&) noexcept = default].  The only member is
    declared [const std::shared_ptr<AwaitableGuarded<T>> m_guarded], so the
    member-wise initialisation of the new object receives a const xvalue,
    for which overload resolution selects the copy constructor of
    [std::shared_ptr]: the new proxy gets a copy of the pointer and the
    source object keeps its own. *)
Definition proxy_move_ctor (src : proxy) : proxy * proxy :=
  ({| p_mode := p_mode src; m_guarded := m_guarded src; p_alive := true |}, src).

(** [LockAwaitableBase::await_resume]: [ProxyType{std::move(guarded)}]; the
    awaitable's own pointer is moved out. *)
Definition await_resume (a : awaitable) : proxy * awaitable :=
  ({| p_mode := a_mode a; m_guarded := guarded a; p_alive := true |},
   {| a_mode := a_mode a; guarded := null; a_pc := Resumed |}).

Definition set_pc (a : awaitable) (p : pc) : awaitable :=
  {| a_mode := a_mode a; guarded := guarded a; a_pc := p |}.

Definition end_lifetime (p : proxy) : proxy :=
  {| p_mode := p_mode p; m_guarded := m_guarded p; p_alive := false |}.

(** *** Interleaving semantics *)

(** What can happen next to a resource:
    - [LockCall m]: some task calls [lock_shared()] or [lock_unique()] and
      starts awaiting the result;
    - [Run t]: awaitable [t] performs its next atomic operation;
    - [Destroy p]: the lifetime of proxy object [p] ends;
    - [MoveConstruct p]: a new proxy object is move-constructed from [p]. *)
Inductive event :=
| LockCall (m : mode)
| Run (t : nat)
| Destroy (p : nat)
| MoveConstruct (p : nat).

Definition run_awaitable (t : nat) (a : awaitable) (w : world) : option world :=
  match a_pc a, a_mode a, guarded a with
  | Calling c, Shared, the_guarded =>
      let current := SharedLockAwaitable_try_lock_load (m_state w) in
      Some {| m_state := m_state w;
              awaitables := <[t := set_pc a (Loaded c current)]> (awaitables w);
              proxies := proxies w |}
  | Loaded c current, Shared, the_guarded =>
      match SharedLockAwaitable_try_lock_cas current (m_state w) with
      | Some (ok, st') =>
          Some {| m_state := st';
                  awaitables := <[t := set_pc a (after_try_lock c ok)]> (awaitables w);
                  proxies := proxies w |}
      | None => None
      end
  | Calling c, Unique, the_guarded =>
      let '(ok, st') := UniqueLockAwaitable_try_lock (m_state w) in
      Some {| m_state := st';
              awaitables := <[t := set_pc a (after_try_lock c ok)]> (awaitables w);
              proxies := proxies w |}
  | Locked _, _, _ =>
      let '(p, a') := await_resume a in
      Some {| m_state := m_state w;
              awaitables := <[t := a']> (awaitables w);
              proxies := proxies w ++ [p] |}
  | _, _, _ => None
  end.

(** One event.  [None]: the event cannot happen in [w] (no such object, an
    awaitable that is finished, an object whose lifetime has ended) or the
    behaviour is undefined there. *)
Definition step (e : event) (w : world) : option world :=
  match e with
  | LockCall m =>
      Some {| m_state := m_state w;
              awaitables := awaitables w ++ [lock_call m];
              proxies := proxies w |}
  | Run t =>
      match awaitables w !! t with
      | Some a => run_awaitable t a w
      | None => None
      end
  | Destroy p =>
      match proxies w !! p with
      | Some pr =>
          if p_alive pr then
            Some {| m_state := proxy_dtor pr (m_state w);
                    awaitables := awaitables w;
                    proxies := <[p := end_lifetime pr]> (proxies w) |}
          else None
      | None => None
      end
  | MoveConstruct p =>
      match proxies w !! p with
      | Some pr =>
          if p_alive pr then
            let '(new, src) := proxy_move_ctor pr in
            Some {| m_state := m_state w;
                    awaitables := awaitables w;
                    proxies := <[p := src]> (proxies w) ++ [new] |}
          else None
      | None => None
      end
  end.

Fixpoint run (tr : list event) (w : world) : option world :=
  match tr with
  | [] => Some w
  | e :: tr' =>
      match step e w with
      | Some w' => run tr' w'
      | None => None
      end
  end.

(** What [try_lock] returns when event [e] is the step that completes a
    call of it in [w]: the test-and-swap of a shared attempt, or the swap of
    a unique attempt.  [None] for every other event. *)
Definition try_lock_result (e : event) (w : world) : option bool :=
  match e with
  | Run t =>
      match awaitables w !! t with
      | Some a =>
          match a_pc a, a_mode a, guarded a with
          | Loaded _ current, Shared, the_guarded =>
              match SharedLockAwaitable_try_lock_cas current (m_state w) with
              | Some (ok, _) => Some ok
              | None => None
              end
          | Calling _, Unique, the_guarded =>
              Some (fst (UniqueLockAwaitable_try_lock (m_state w)))
          | _, _, _ => None
          end
      | None => None
      end
  | _ => None
  end.

(** The first step of a shared attempt: the plain load. *)
Definition is_load (e : event) (w : world) : bool :=
  match e with
  | Run t =>
      match awaitables w !! t with
      | Some a =>
          match a_pc a, a_mode a with
          | Calling _, Shared => true
          | _, _ => false
          end
      | None => false
      end
  | _ => false
  end.

(** Events of tasks that only wait: new lock calls, loads, and calls of
    [try_lock] that return [false]. *)
Definition waiting_event (e : event) (w : world) : bool :=
  match e with
  | LockCall _ => true
  | Run _ =>
      is_load e w ||
      match try_lock_result e w with Some false => true | _ => false end
  | _ => false
  end.

Fixpoint waiters_only (tr : list event) (w : world) : Prop :=
  match tr with
  | [] => True
  | e :: tr' =>
      waiting_event e w = true ∧
      match step e w with
      | Some w' => waiters_only tr' w'
      | None => True
      end
  end.

(** *** Sample traces *)

(** A reader acquires and a writer arrives; the writer's first attempt
    fails, the reader drops its proxy, the writer's re-check wins. *)
Definition trace_reader_then_writer : list event :=
  [LockCall Shared; Run 0; Run 0; Run 0; LockCall Unique; Run 1;
   Destroy 0; Run 1; Run 1]%nat.

(** Two readers acquire one after the other. *)
Definition trace_two_readers : list event :=
  [LockCall Shared; Run 0; Run 0; Run 0;
   LockCall Shared; Run 1; Run 1; Run 1]%nat.

(** Two readers read 0; the second one wins its swap before the first one
    runs its own. *)
Definition trace_racing_readers : list event :=
  [LockCall Shared; LockCall Shared; Run 0; Run 1; Run 1]%nat.

(** A writer acquires and keeps its proxy. *)
Definition trace_writer_holds : list event :=
  [LockCall Unique; Run 0; Run 0]%nat.

(** One reader acquires; its proxy is moved from; both objects die. *)
Definition trace_moved_shared_proxy : list event :=
  [LockCall Shared; Run 0; Run 0; Run 0;
   MoveConstruct 0; Destroy 0; Destroy 1]%nat.

(** One writer acquires and its proxy is moved from; the source dies, a
    reader acquires, the moved-to proxy dies, a second writer acquires. *)
Definition trace_moved_unique_proxy : list event :=
  [LockCall Unique; Run 0; Run 0;
   MoveConstruct 0; Destroy 0;
   LockCall Shared; Run 1; Run 1; Run 1;
   Destroy 1;
   LockCall Unique; Run 2; Run 2]%nat.

(** *** Counting acquisitions and releases along a trace *)

(** The event runs a destructor that releases: the object is alive and its
    [m_guarded] is not empty. *)
Definition releasing (e : event) (w : world) : bool :=
  match e with
  | Destroy p =>
      match proxies w !! p with
      | Some pr =>
          p_alive pr && match m_guarded pr with the_guarded => true | null => false end
      | None => false
      end
  | _ => false
  end.

Definition acquiring (e : event) (w : world) : bool :=
  match try_lock_result e w with Some true => true | _ => false end.

Fixpoint count_along (f : event → world → bool) (tr : list event) (w : world) : nat :=
  match tr with
  | [] => 0%nat
  | e :: tr' =>
      ((if f e w then 1 else 0) +
       match step e w with
       | Some w' => count_along f tr' w'
       | None => 0
       end)%nat
  end.

(** *** Who holds the lock *)

Definition b2n (b : bool) : nat := if b then 1%nat else 0%nat.

Fixpoint tally {A : Type} (f : A → bool) (l : list A) : nat :=
  match l with
  | [] => 0%nat
  | x :: l' => ((if f x then 1 else 0) + tally f l')%nat
  end.

Definition is_locked (p : pc) : bool :=
  match p with Locked _ => true | _ => false end.

(** An awaitable whose [try_lock] has succeeded and whose proxy is not
    built yet. *)
Definition pending (m : mode) (a : awaitable) : bool :=
  mode_eqb (a_mode a) m && is_locked (a_pc a).

(** A proxy object of flavour [m] whose lifetime has not ended. *)
Definition live (m : mode) (p : proxy) : bool :=
  mode_eqb (p_mode p) m && p_alive p.

Definition live_proxies (m : mode) (w : world) : nat := tally (live m) (proxies w).

Definition holders (m : mode) (w : world) : nat :=
  (tally (pending m) (awaitables w) + live_proxies m w)%nat.

(** All proxies have been dropped and no acquisition is half-way between
    its successful [try_lock] and the construction of its proxy. *)
Definition quiescent (w : world) : Prop :=
  (∀ p pr, proxies w !! p = Some pr → p_alive pr = false) ∧
  (∀ t a, awaitables w !! t = Some a → is_locked (a_pc a) = false).

(** Traces made of acquisition attempts and releases only: every proxy
    object is the one [await_resume] built, and is destroyed where it is. *)
Definition is_move (e : event) : bool :=
  match e with MoveConstruct _ => true | _ => false end.

Definition acquire_release_only (tr : list event) : Prop :=
  Forall (λ e, is_move e = false) tr.

(** The meaning of [m_state] (0 = free, -1 = unique, >0 = shared count),
    with the facts about the pointers that keep it true. *)
Record lock_inv (w : world) : Prop := {
  inv_range : Atomic.in_int (m_state w);
  inv_state :
    (holders Unique w = 0%nat ∧ m_state w = Z.of_nat (holders Shared w)) ∨
    (holders Unique w = 1%nat ∧ holders Shared w = 0%nat ∧ m_state w = -1);
  inv_proxies :
    ∀ p pr, proxies w !! p = Some pr → m_guarded pr = the_guarded;
  inv_awaitables :
    ∀ t a, awaitables w !! t = Some a → a_pc a ≠ Resumed → guarded a = the_guarded
}.

End Guarded.

(** ** [AwaitableGuarded::isHolding] *)

Module Holding.

(** Where an object lives.  A reference [const T&] denotes the object at an
    address; [std::addressof] gives that address back. *)
Definition address := N.

Section IsHolding.
Variable T : Type.

(** The objects of type [T] of the program, by address, and one
    [AwaitableGuarded<T>]: the content of [m_state] and the address of its
    member [m_data]. *)
Record memory := {
  objects : gmap N T;
  m_state : Z;
  addressof_m_data : address
}.

(** [bool isHolding(const T& a_data) const noexcept]:
    [std::addressof(this->m_data) == std::addressof(a_data)]. *)
Definition isHolding (a_data : address) (m : memory) : bool * memory :=
  (N.eqb (addressof_m_data m) a_data, m).

End IsHolding.

Arguments objects {T} _.
Arguments m_state {T} _.
Arguments addressof_m_data {T} _.
Arguments isHolding {T} _ _.

(** Two [int] objects with the same value 5: the guarded one at address 16
    and another one at address 32. *)
Definition memory_twins : memory Z :=
  {| objects := {[ 16%N := 5; 32%N := 5 ]}; m_state := 0; addressof_m_data := 16%N |}.

End Holding.

(** ** [resume_on_io_loop<AwaiterType>] and its awaiter *)

Module IoLoop.

(** What a queued callback does: [[handle]() { handle.resume(); }]. *)
Inductive callback := resume (handle : nat).

(** Modelled from the spec: the reactor abstraction behind [drogon::app()],
    an external collaborator: a fixed set of run queues identified by their
    index ([getThreadNum] of them), the index of the thread that runs the
    current code ([getCurrentThreadIndex], meaningful on reactor threads
    only), and [getIOLoop(i)->queueInLoop(cb)], which appends [cb] to queue
    [i] and has no meaning when there is no queue [i]. *)
Record app := {
  current_thread : N;
  io_loops : list (list callback)
}.

Definition getCurrentThreadIndex (a : app) : N := current_thread a.

Definition getThreadNum (a : app) : N := N.of_nat (length (io_loops a)).

Definition queueInLoop (i : N) (cb : callback) (a : app) : option app :=
  match io_loops a !! N.to_nat i with
  | Some q =>
      Some {| current_thread := current_thread a;
              io_loops := <[N.to_nat i := q ++ [cb]]> (io_loops a) |}
  | None => None
  end.

(** The code that follows a [co_await] runs on the thread that completed
    the awaited operation. *)
Definition hop_to (thread : N) (a : app) : app :=
  {| current_thread := thread; io_loops := io_loops a |}.

Section Awaiter.
(** [E]: what an exception object thrown by an inner operation carries;
    [R]: [ResultType] when it is not [void]. *)
Variable E : Type.
Variable R : Type.

Inductive exception :=
| runtime_error (what : string)
| other_exception (e : E).

(** How evaluating an expression ends. *)
Inductive completion (A : Type) :=
| returns (v : A)
| throws (e : exception).

(** The wrapped awaiter, by what awaiting it does: the thread on which it
    completes and how. *)
Record inner_awaiter (A : Type) := {
  completes_on : N;
  completes_with : completion A
}.

(** [std::variant<std::monostate, std::exception_ptr>] *)
Inductive variant_void :=
| vv_monostate
| vv_exception_ptr (e : exception).

(** [std::variant<std::monostate, std::exception_ptr, ResultType>] *)
Inductive variant_value :=
| v_monostate
| v_exception_ptr (e : exception)
| v_result (r : R).

(** [struct awaiter] for [std::is_void_v<ResultType>] *)
Record awaiter_void := {
  vm_inner_awaiter : inner_awaiter unit;
  vm_original_thread_index : N;
  vm_result : variant_void
}.

(** [struct awaiter] for a [ResultType] that is not [void] *)
Record awaiter_value := {
  m_inner_awaiter : inner_awaiter R;
  m_original_thread_index : N;
  m_result : variant_value
}.

(** [operator co_await() &&]: [awaiter{std::move(m_inner_awaiter), 0, {}}] *)
Definition co_await_void (inner : inner_awaiter unit) : awaiter_void :=
  {| vm_inner_awaiter := inner; vm_original_thread_index := 0%N;
     vm_result := vv_monostate |}.

Definition co_await_value (inner : inner_awaiter R) : awaiter_value :=
  {| m_inner_awaiter := inner; m_original_thread_index := 0%N;
     m_result := v_monostate |}.

(** [bool await_ready() const noexcept { return false; }] *)
Definition await_ready_void (self : awaiter_void) : bool := false.
Definition await_ready_value (self : awaiter_value) : bool := false.

(** [m_result.emplace<...>(...)]: the slot now holds [x].  The list beside
    the awaiter collects the emplaced alternatives in order. *)
Definition emplace_void (x : variant_void) (s : list variant_void * awaiter_void)
  : list variant_void * awaiter_void :=
  (fst s ++ [x],
   {| vm_inner_awaiter := vm_inner_awaiter (snd s);
      vm_original_thread_index := vm_original_thread_index (snd s);
      vm_result := x |}).

Definition emplace_value (x : variant_value) (s : list variant_value * awaiter_value)
  : list variant_value * awaiter_value :=
  (fst s ++ [x],
   {| m_inner_awaiter := m_inner_awaiter (snd s);
      m_original_thread_index := m_original_thread_index (snd s);
      m_result := x |}).

(** The detached lambda of [await_suspend]: await the inner awaiter
    inside [try], record how it ended, then, from the thread on which that
    happened, post the resumption of [handle] to the loop
    [m_original_thread_index].  For [void] the [try] block only awaits. *)
Definition lambda_void (self : awaiter_void) (handle : nat) (a : app)
  : option (list variant_void * awaiter_void * app) :=
  let inner := vm_inner_awaiter self in
  let '(writes, self') :=
    match completes_with _ inner with
    | returns _ _ => ([], self)
    | throws _ e => emplace_void (vv_exception_ptr e) ([], self)
    end in
  let a' := hop_to (completes_on _ inner) a in
  match queueInLoop (vm_original_thread_index self') (resume handle) a' with
  | Some a'' => Some (writes, self', a'')
  | None => None
  end.

Definition lambda_value (self : awaiter_value) (handle : nat) (a : app)
  : option (list variant_value * awaiter_value * app) :=
  let inner := m_inner_awaiter self in
  let '(writes, self') :=
    match completes_with _ inner with
    | returns _ v => emplace_value (v_result v) ([], self)
    | throws _ e => emplace_value (v_exception_ptr e) ([], self)
    end in
  let a' := hop_to (completes_on _ inner) a in
  match queueInLoop (m_original_thread_index self') (resume handle) a' with
  | Some a'' => Some (writes, self', a'')
  | None => None
  end.

(** The index [await_suspend] stores: the current one, or 0 when it is
    not below [getThreadNum()]. *)
Definition original_thread_index (a : app) : N :=
  let i := getCurrentThreadIndex a in
  if (getThreadNum a <=? i)%N then 0%N else i.

(** [void await_suspend(std::coroutine_handle<> handle)] *)
Definition await_suspend_void (self : awaiter_void) (handle : nat) (a : app)
  : option (list variant_void * awaiter_void * app) :=
  let self' :=
    {| vm_inner_awaiter := vm_inner_awaiter self;
       vm_original_thread_index := original_thread_index a;
       vm_result := vm_result self |} in
  lambda_void self' handle a.

Definition await_suspend_value (self : awaiter_value) (handle : nat) (a : app)
  : option (list variant_value * awaiter_value * app) :=
  let self' :=
    {| m_inner_awaiter := m_inner_awaiter self;
       m_original_thread_index := original_thread_index a;
       m_result := m_result self |} in
  lambda_value self' handle a.

(** [ResultType await_resume()] *)
Definition await_resume_void (self : awaiter_void) : completion unit :=
  match vm_result self with
  | vv_exception_ptr e => throws _ e
  | vv_monostate => returns _ tt
  end.

Definition await_resume_value (self : awaiter_value) : completion R :=
  match m_result self with
  | v_exception_ptr e => throws _ e
  | v_result r => returns _ r
  | v_monostate =>
      throws _ (runtime_error "await_resume: neither exception nor value is in m_result")
  end.

End Awaiter.

Arguments runtime_error {E} _.
Arguments other_exception {E} _.
Arguments returns {E A} _.
Arguments throws {E A} _.
Arguments completes_on {E A} _.
Arguments completes_with {E A} _.
Arguments vv_monostate {E}.
Arguments vv_exception_ptr {E} _.
Arguments v_monostate {E R}.
Arguments v_exception_ptr {E R} _.
Arguments v_result {E R} _.
Arguments vm_inner_awaiter {E} _.
Arguments vm_original_thread_index {E} _.
Arguments vm_result {E} _.
Arguments m_inner_awaiter {E R} _.
Arguments m_original_thread_index {E R} _.
Arguments m_result {E R} _.
Arguments co_await_void {E} _.
Arguments co_await_value {E R} _.
Arguments await_ready_void {E} _.
Arguments await_ready_value {E R} _.
Arguments await_suspend_void {E} _ _ _.
Arguments await_suspend_value {E R} _ _ _.
Arguments lambda_void {E} _ _ _.
Arguments lambda_value {E R} _ _ _.
Arguments await_resume_void {E} _.
Arguments await_resume_value {E R} _.

(** *** Sample runs *)

(** Three loops; the caller runs on loop 2, which already has a callback
    queued. *)
Definition app3 : app :=
  {| current_thread := 2; io_loops := [[]; []; [resume 4]] |}.

(** The same loops seen from a thread that is no loop thread. *)
Definition app3_outside : app :=
  {| current_thread := 18446744073709551615; io_loops := [[]; []; [resume 4]] |}.

(** A side-effect-only operation that succeeds on thread 9. *)
Definition void_success : inner_awaiter string unit :=
  {| completes_on := 9; completes_with := returns tt |}.

(** An operation that fails on thread 9. *)
Definition value_failure : inner_awaiter string Z :=
  {| completes_on := 9; completes_with := throws (other_exception "db down"%string) |}.

(** An operation that yields 42 on thread 9. *)
Definition value_success : inner_awaiter string Z :=
  {| completes_on := 9; completes_with := returns 42%Z |}.

End IoLoop.

(** ** Readers in a row *)

Module Scenario.

Import Guarded.

(** [k] tasks, one after the other, evaluate [co_await lock_shared()] and
    keep the proxy they get: the lock call, then the load, the
    compare-and-swap and [await_resume] of the new awaitable.  [first] is
    the index the first new awaitable gets. *)
Fixpoint readers (k : nat) (first : nat) : list event :=
  match k with
  | O => []
  | S k' => LockCall Shared :: Run first :: Run first :: Run first :: readers k' (S first)
  end.

(** What such a task leaves behind: an awaitable that has given its
    pointer away, and a live proxy. *)
Definition served_reader : awaitable :=
  {| a_mode := Shared; guarded := null; a_pc := Resumed |}.

Definition reader_proxy : proxy :=
  {| p_mode := Shared; m_guarded := the_guarded; p_alive := true |}.

(** [INT_MAX] readers already hold the lock and one more has read that. *)
Definition world_full : world :=
  {| m_state := Atomic.INT_MAX;
     awaitables := [ {| a_mode := Shared; guarded := the_guarded;
                        a_pc := Loaded in_await_ready Atomic.INT_MAX |} ];
     proxies := [] |}.

End Scenario.

(** ** The guarded data, reached through the proxies *)

Module GuardedData.

Import Guarded.

(** What a proxy lets its holder do with [m_data]:
    [SharedProxy::operator->] and [operator*] give [const T*] and
    [const T&], [UniqueProxy]'s give [T*] and [T&]. *)
Inductive access := read_only | read_write.

(** Evaluating [*proxy] or [proxy->]: [m_guarded->m_data].  No value when
    the object's lifetime has ended or its pointer is empty. *)
Definition proxy_deref (pr : proxy) : option access :=
  if p_alive pr then
    match m_guarded pr with
    | the_guarded =>
        Some (match p_mode pr with Shared => read_only | Unique => read_write end)
    | null => None
    end
  else None.

Section Data.
Variable T : Type.

(** The resource with its member [m_data]. *)
Record dworld := {
  lock : world;
  m_data : T
}.

(** [create(args...)]: [m_state{0}], [m_data{args...}]. *)
Definition dcreate (v : T) : dworld := {| lock := create; m_data := v |}.

(** Besides the events of the lock: a task reads [m_data] through proxy
    [p], or assigns [v] to it through proxy [p]. *)
Inductive devent :=
| Lock (e : event)
| Get (p : nat)
| Put (p : nat) (v : T).

(** One event: the new resource and the values read. *)
Definition dstep (e : devent) (s : dworld) : option (dworld * list T) :=
  match e with
  | Lock e' =>
      match step e' (lock s) with
      | Some w' => Some ({| lock := w'; m_data := m_data s |}, [])
      | None => None
      end
  | Get p =>
      match proxies (lock s) !! p with
      | Some pr =>
          match proxy_deref pr with
          | Some _ => Some (s, [m_data s])
          | None => None
          end
      | None => None
      end
  | Put p v =>
      match proxies (lock s) !! p with
      | Some pr =>
          match proxy_deref pr with
          | Some read_write => Some ({| lock := lock s; m_data := v |}, [])
          | _ => None
          end
      | None => None
      end
  end.

Fixpoint drun (tr : list devent) (s : dworld) : option (dworld * list T) :=
  match tr with
  | [] => Some (s, [])
  | e :: tr' =>
      match dstep e s with
      | Some (s1, out1) =>
          match drun tr' s1 with
          | Some (s', out2) => Some (s', out1 ++ out2)
          | None => None
          end
      | None => None
      end
  end.

Definition d_is_move (e : devent) : bool :=
  match e with Lock e' => is_move e' | _ => false end.

(** Runs in which no proxy is move-constructed. *)
Definition no_moves (tr : list devent) : Prop :=
  Forall (λ e, d_is_move e = false) tr.

(** The event reaches [m_data] through proxy [p] or not at all. *)
Definition through (p : nat) (e : devent) : Prop :=
  match e with
  | Lock _ => True
  | Get q | Put q _ => q = p
  end.

(** The content of [m_data] after the events: what the last [Put] assigned,
    or [v] when there is none. *)
Fixpoint last_put (tr : list devent) (v : T) : T :=
  match tr with
  | [] => v
  | Put _ v' :: tr' => last_put tr' v'
  | _ :: tr' => last_put tr' v
  end.

End Data.

Arguments lock {T} _.
Arguments m_data {T} _.
Arguments dcreate {T} _.
Arguments Lock {T} _.
Arguments Get {T} _.
Arguments Put {T} _ _.
Arguments dstep {T} _ _.
Arguments drun {T} _ _.
Arguments d_is_move {T} _.
Arguments no_moves {T} _.
Arguments through {T} _ _.
Arguments last_put {T} _ _.

(** *** Sample runs *)

(** A reader acquires and reads; it reads again after a writer has started
    waiting. *)
Definition reader_reads_twice_prefix : list (devent Z) :=
  [Lock (LockCall Shared); Lock (Run 0); Lock (Run 0); Lock (Run 0)]%nat.

Definition reader_reads_twice : list (devent Z) :=
  [Get 0; Lock (LockCall Unique); Lock (Run 1); Get 0]%nat.

(** A writer acquires; it assigns twice and reads while a reader waits. *)
Definition writer_prefix : list (devent Z) :=
  [Lock (LockCall Unique); Lock (Run 0); Lock (Run 0)]%nat.

Definition writer_assigns : list (devent Z) :=
  [Put 0%nat 5; Lock (LockCall Shared); Lock (Run 1%nat); Lock (Run 1%nat);
   Put 0%nat 7; Get 0%nat].

End GuardedData.

(** ** The lock awaitables on the event loops *)

Module LockLoop.

Import Guarded.

(** What a lock awaitable queues in a loop: [[this] { spin(); }] of
    awaitable [t], or [[h = handle_] { h.resume(); }], which resumes the
    coroutine that is suspended on awaitable [t]. *)
Inductive task := spin (t : nat) | resume (t : nat).

Definition task_of (k : task) : nat :=
  match k with spin t | resume t => t end.

Definition task_eqb (k k' : task) : bool :=
  match k, k' with
  | spin t, spin t' | resume t, resume t' => Nat.eqb t t'
  | _, _ => false
  end.

(** Modelled from the spec: the reactor abstraction behind [drogon::app()],
    an external collaborator: one queue of callbacks per loop;
    [getIOLoop(i)->queueInLoop(k)] appends [k] to queue [i] and has no
    meaning when there is no queue [i]; loop [i] takes the callbacks of its
    queue from the front and runs them on the thread whose
    [getCurrentThreadIndex()] is [i]. *)
Definition queueInLoop (i : N) (k : task) (qs : list (list task))
  : option (list (list task)) :=
  match qs !! N.to_nat i with
  | Some q => Some (<[N.to_nat i := q ++ [k]]> qs)
  | None => None
  end.

(** The lock, the queues of the loops and, for every awaitable, the index
    of the thread that is inside its [await_ready] or its [spin] ([None]
    when no thread is).  [home] is not part of the program: it remembers the
    index of the thread on which each awaitable was awaited. *)
Record sched := {
  lk : world;
  queues : list (list task);
  running : list (option N);
  home : list N
}.

(** A fresh resource and [n] idle loops. *)
Definition start (n : nat) : sched :=
  {| lk := create; queues := replicate n []; running := []; home := [] |}.

(** [LockAwaitableBase::await_suspend]: [handle_ = h;] then
    [getIOLoop(getCurrentThreadIndex())->queueInLoop([this] { spin(); })]. *)
Definition await_suspend (t : nat) (current : N) (qs : list (list task))
  : option (list (list task)) :=
  queueInLoop current (spin t) qs.

(** [LockAwaitableBase::spin] once its call of [try_lock] has returned
    [ok]: queue the resumption, or queue [spin] again. *)
Definition spin_tail (t : nat) (current : N) (ok : bool) (qs : list (list task))
  : option (list (list task)) :=
  if ok then queueInLoop current (resume t) qs
  else queueInLoop current (spin t) qs.

(** What can happen:
    - [CoAwait m i]: a task running on the thread of index [i] evaluates
      [co_await lock_shared()] or [co_await lock_unique()];
    - [Exec t]: the thread that is inside [await_ready] or [spin] of
      awaitable [t] performs the next atomic operation, and what follows it
      up to the return of [await_ready], [await_suspend] or [spin];
    - [Dequeue i]: loop [i] takes the first callback of its queue and runs
      it;
    - [Drop p], [MoveFrom p]: a proxy object dies, or is moved from. *)
Inductive levent :=
| CoAwait (m : mode) (thread : N)
| Exec (t : nat)
| Dequeue (i : nat)
| Drop (p : nat)
| MoveFrom (p : nat).

Definition update (s : sched) (w' : world) (qs' : list (list task))
    (t : nat) (r : option N) : sched :=
  {| lk := w'; queues := qs'; running := <[t := r]> (running s); home := home s |}.

Definition exec (t : nat) (s : sched) : option sched :=
  match running s !! t, awaitables (lk s) !! t with
  | Some (Some i), Some a =>
      match step (Run t) (lk s) with
      | Some w' =>
          match a_pc a with
          | Locked in_await_ready =>
              (* [await_ready] returned [true]: [await_resume] follows *)
              Some (update s w' (queues s) t None)
          | Calling c | Loaded c _ =>
              match try_lock_result (Run t) (lk s) with
              | None => Some (update s w' (queues s) t (Some i))
              | Some ok =>
                  match c with
                  | in_await_ready =>
                      if LockAwaitableBase_await_ready ok
                      then Some (update s w' (queues s) t (Some i))
                      else
                        match await_suspend t i (queues s) with
                        | Some qs' => Some (update s w' qs' t None)
                        | None => None
                        end
                  | in_spin =>
                      match spin_tail t i ok (queues s) with
                      | Some qs' => Some (update s w' qs' t None)
                      | None => None
                      end
                  end
              end
          | _ => None
          end
      | None => None
      end
  | _, _ => None
  end.

Definition dequeue (i : nat) (s : sched) : option sched :=
  match queues s !! i with
  | Some (k :: q) =>
      let qs' := <[i := q]> (queues s) in
      match k with
      | spin t =>
          match running s !! t with
          | Some None => Some (update s (lk s) qs' t (Some (N.of_nat i)))
          | _ => None
          end
      | resume t =>
          match awaitables (lk s) !! t with
          | Some a =>
              match a_pc a, step (Run t) (lk s) with
              | Locked in_spin, Some w' =>
                  Some {| lk := w'; queues := qs'; running := running s; home := home s |}
              | _, _ => None
              end
          | None => None
          end
      end
  | _ => None
  end.

Definition with_lock (s : sched) (w' : world) : sched :=
  {| lk := w'; queues := queues s; running := running s; home := home s |}.

Definition lstep (e : levent) (s : sched) : option sched :=
  match e with
  | CoAwait m i =>
      match step (LockCall m) (lk s) with
      | Some w' =>
          Some {| lk := w'; queues := queues s;
                  running := running s ++ [Some i]; home := home s ++ [i] |}
      | None => None
      end
  | Exec t => exec t s
  | Dequeue i => dequeue i s
  | Drop p =>
      match step (Destroy p) (lk s) with
      | Some w' => Some (with_lock s w')
      | None => None
      end
  | MoveFrom p =>
      match step (MoveConstruct p) (lk s) with
      | Some w' => Some (with_lock s w')
      | None => None
      end
  end.

Fixpoint lrun (tr : list levent) (s : sched) : option sched :=
  match tr with
  | [] => Some s
  | e :: tr' =>
      match lstep e s with
      | Some s' => lrun tr' s'
      | None => None
      end
  end.

Definition l_is_move (e : levent) : bool :=
  match e with MoveFrom _ => true | _ => false end.

Definition l_no_moves (tr : list levent) : Prop :=
  Forall (λ e, l_is_move e = false) tr.

(** *** Callbacks in the queues *)

Fixpoint occurrences (k : task) (q : list task) : nat :=
  match q with
  | [] => 0%nat
  | k' :: q' => ((if task_eqb k k' then 1 else 0) + occurrences k q')%nat
  end.

(** How many times callback [k] is queued, all loops together. *)
Fixpoint queued (k : task) (qs : list (list task)) : nat :=
  match qs with
  | [] => 0%nat
  | q :: qs' => (occurrences k q + queued k qs')%nat
  end.

(** The task is suspended and waits for its [spin] to be run. *)
Definition awaits_spin (a : awaitable) (r : option N) : bool :=
  match a_pc a, r with
  | Calling in_spin, None => true
  | _, _ => false
  end.

(** The task is suspended, holds the lock and waits to be resumed. *)
Definition awaits_resume (a : awaitable) : bool :=
  match a_pc a with
  | Locked in_spin => true
  | _ => false
  end.

(** Where a thread is inside the awaitable and where none is. *)
Definition running_fits (a : awaitable) (r : option N) : Prop :=
  match a_pc a with
  | Calling in_await_ready | Loaded _ _ | Locked in_await_ready => r ≠ None
  | Locked in_spin | Resumed => r = None
  | Calling in_spin => True
  end.

Record sched_inv (s : sched) : Prop := {
  si_running : length (running s) = length (awaitables (lk s));
  si_home : length (home s) = length (awaitables (lk s));
  si_tasks :
    ∀ t a r, awaitables (lk s) !! t = Some a → running s !! t = Some r →
      queued (spin t) (queues s) = b2n (awaits_spin a r) ∧
      queued (resume t) (queues s) = b2n (awaits_resume a) ∧
      running_fits a r;
  si_thread :
    ∀ t i h, running s !! t = Some (Some i) → home s !! t = Some h → i = h;
  si_queue :
    ∀ j q k, queues s !! j = Some q → k ∈ q →
      home s !! task_of k = Some (N.of_nat j)
}.

(** *** Sample run *)

(** On two loops: a reader on loop 1 acquires at once; a writer on loop 0
    fails and is suspended; its [spin] runs once and fails again; the reader
    drops its proxy; [spin] runs again and wins; the resumption runs. *)
Definition writer_waits_on_loop : list levent :=
  [CoAwait Shared 1; Exec 0; Exec 0; Exec 0;
   CoAwait Unique 0; Exec 1;
   Dequeue 0; Exec 1;
   Drop 0;
   Dequeue 0; Exec 1;
   Dequeue 0]%nat.

(** The same run up to the moment the writer is suspended. *)
Definition writer_suspended_on_loop : list levent :=
  [CoAwait Shared 1; Exec 0; Exec 0; Exec 0;
   CoAwait Unique 0; Exec 1]%nat.

End LockLoop.

(** ** [switch_to_io_loop]: from the call to the resumption *)

Module Resumption.

Import IoLoop.

(** Modelled from the spec: the reactor abstraction behind [drogon::app()],
    an external collaborator: loop [i] takes the callbacks of its queue from
    the front, one at a time, and runs each on the thread whose
    [getCurrentThreadIndex()] is [i]. *)
Definition run_next (i : N) (a : app) : option (callback * app) :=
  match io_loops a !! N.to_nat i with
  | Some (cb :: q) =>
      Some (cb, {| current_thread := i;
                   io_loops := <[N.to_nat i := q]> (io_loops a) |})
  | _ => None
  end.

(** [n] callbacks of loop [i], one after the other. *)
Fixpoint run_many (n : nat) (i : N) (a : app) : option (list callback * app) :=
  match n with
  | O => Some ([], a)
  | S n' =>
      match run_next i a with
      | Some (cb, a') =>
          match run_many n' i a' with
          | Some (cbs, a'') => Some (cb :: cbs, a'')
          | None => None
          end
      | None => None
      end
  end.

Section Wrapper.
Variable E : Type.
Variable R : Type.

(** [class resume_on_io_loop<AwaiterType>]: its member [m_inner_awaiter]. *)
Record resume_on_io_loop (A : Type) := {
  wrapped : inner_awaiter E A
}.

(** [switch_to_io_loop(awaiter)]:
    [resume_on_io_loop<AwaiterType>(std::forward<AwaiterType>(awaiter))]. *)
Definition switch_to_io_loop {A : Type} (awaiter : inner_awaiter E A)
  : resume_on_io_loop A :=
  {| wrapped := awaiter |}.

(** [operator co_await() &&]: [awaiter{std::move(m_inner_awaiter), 0, {}}]. *)
Definition operator_co_await_value (w : resume_on_io_loop R) : awaiter_value E R :=
  co_await_value (wrapped _ w).

Definition operator_co_await_void (w : resume_on_io_loop unit) : awaiter_void E :=
  co_await_void (wrapped _ w).

(** The callbacks that are in front of the resumption in the loop [origin]
    are run, then the resumption itself, which has to be the one of
    [handle]. *)
Definition resumed_on (origin : N) (ahead : nat) (handle : nat) (a : app)
  : option app :=
  match run_many ahead origin a with
  | Some (_, a') =>
      match run_next origin a' with
      | Some (resume h, a'') => if Nat.eqb h handle then Some a'' else None
      | None => None
      end
  | None => None
  end.

(** [co_await switch_to_io_loop(inner)] in the coroutine [handle]: the
    ready test, the suspension, the run of the origin loop up to the
    resumption, and [await_resume].  The result of the expression and the
    reactors as the coroutine finds them when it goes on. *)
Definition co_await_value_expr (inner : inner_awaiter E R) (handle : nat) (a : app)
  : option (completion E R * app) :=
  let self := operator_co_await_value (switch_to_io_loop inner) in
  if Coroutine.co_await_suspends (await_ready_value self) then
    match await_suspend_value self handle a with
    | Some (_, self', a1) =>
        let origin := m_original_thread_index self' in
        match io_loops a !! N.to_nat origin with
        | Some q =>
            match resumed_on origin (length q) handle a1 with
            | Some a2 => Some (await_resume_value self', a2)
            | None => None
            end
        | None => None
        end
    | None => None
    end
  else Some (await_resume_value self, a).

Definition co_await_void_expr (inner : inner_awaiter E unit) (handle : nat) (a : app)
  : option (completion E unit * app) :=
  let self := operator_co_await_void (switch_to_io_loop inner) in
  if Coroutine.co_await_suspends (await_ready_void self) then
    match await_suspend_void self handle a with
    | Some (_, self', a1) =>
        let origin := vm_original_thread_index self' in
        match io_loops a !! N.to_nat origin with
        | Some q =>
            match resumed_on origin (length q) handle a1 with
            | Some a2 => Some (await_resume_void self', a2)
            | None => None
            end
        | None => None
        end
    | None => None
    end
  else Some (await_resume_void self, a).

End Wrapper.

Arguments wrapped {E A} _.
Arguments switch_to_io_loop {E A} _.
Arguments operator_co_await_value {E R} _.
Arguments operator_co_await_void {E} _.
Arguments co_await_value_expr {E R} _ _ _.
Arguments co_await_void_expr {E} _ _ _.

End Resumption.

(** * Properties *)

Import Guarded.

(** ** Arithmetic of [int] *)

Lemma wrap_int_id z : Atomic.in_int z → Atomic.wrap_int z = z.
Proof.
  unfold Atomic.in_int, Atomic.wrap_int, Atomic.INT_MIN, Atomic.INT_MAX.
  intros Hz. rewrite Z.mod_small; lia.
Qed.

Lemma int_add_Some a b r :
  Atomic.int_add a b = Some r →
  r = a + b ∧ Atomic.in_int r.
Proof.
  unfold Atomic.int_add, Atomic.in_int. cbv zeta.
  destruct (Atomic.INT_MIN <=? a + b) eqn:Hlo;
    destruct (a + b <=? Atomic.INT_MAX) eqn:Hhi; simpl; try discriminate.
  intros [= <-]. lia.
Qed.

(** ** Counting holders *)



Lemma tally_app {A} (f : A → bool) l1 l2 :
  tally f (l1 ++ l2) = (tally f l1 + tally f l2)%nat.
Proof. induction l1 as [|x l1 IH]; simpl; [done | rewrite IH; lia]. Qed.

Lemma tally_insert {A} (f : A → bool) (l : list A) i x y :
  l !! i = Some x →
  (tally f (<[i := y]> l) + b2n (f x) = tally f l + b2n (f y))%nat.
Proof.
  revert i. induction l as [|z l IH]; intros [|i] Hi; simpl in *; try discriminate.
  - injection Hi as ->. unfold b2n. destruct (f x), (f y); lia.
  - specialize (IH i Hi). lia.
Qed.

Lemma tally_lookup {A} (f : A → bool) (l : list A) i x :
  l !! i = Some x → f x = true → (1 ≤ tally f l)%nat.
Proof.
  revert i. induction l as [|z l IH]; intros [|i] Hi Hf; simpl in *; try discriminate.
  - injection Hi as ->. rewrite Hf. lia.
  - specialize (IH i Hi Hf). lia.
Qed.

Lemma tally_lookup2 {A} (f : A → bool) (l : list A) i j x y :
  i ≠ j → l !! i = Some x → l !! j = Some y → f x = true → f y = true →
  (2 ≤ tally f l)%nat.
Proof.
  revert i j. induction l as [|z l IH]; intros [|i] [|j] Hij Hi Hj Hx Hy;
    simpl in *; try discriminate; try congruence.
  - injection Hi as ->. rewrite Hx. pose proof (tally_lookup f l j y Hj Hy). lia.
  - injection Hj as ->. rewrite Hy. pose proof (tally_lookup f l i x Hi Hx). lia.
  - assert (i ≠ j) by congruence. specialize (IH i j H Hi Hj Hx Hy). lia.
Qed.

Lemma tally_none {A} (f : A → bool) (l : list A) :
  (∀ i x, l !! i = Some x → f x = false) → tally f l = 0%nat.
Proof.
  induction l as [|z l IH]; intros H; simpl; [done|].
  rewrite (H 0%nat z eq_refl). rewrite IH; [done|].
  intros i x Hi. apply (H (S i) x Hi).
Qed.

Lemma holders_run m w t a a' st :
  awaitables w !! t = Some a →
  (holders m {| m_state := st; awaitables := <[t := a']> (awaitables w);
                proxies := proxies w |} + b2n (pending m a)
   = holders m w + b2n (pending m a'))%nat.
Proof.
  intros Ht. unfold holders, live_proxies. simpl.
  pose proof (tally_insert (pending m) _ t a a' Ht). lia.
Qed.

Lemma holders_resume m w t a a' p :
  awaitables w !! t = Some a →
  (holders m {| m_state := m_state w; awaitables := <[t := a']> (awaitables w);
                proxies := proxies w ++ [p] |} + b2n (pending m a)
   = holders m w + b2n (pending m a') + b2n (live m p))%nat.
Proof.
  intros Ht. unfold holders, live_proxies. simpl.
  pose proof (tally_insert (pending m) _ t a a' Ht).
  rewrite tally_app. simpl. unfold b2n in *. destruct (live m p); lia.
Qed.

Lemma holders_destroy m w p pr pr' st :
  proxies w !! p = Some pr →
  (holders m {| m_state := st; awaitables := awaitables w;
                proxies := <[p := pr']> (proxies w) |} + b2n (live m pr)
   = holders m w + b2n (live m pr'))%nat.
Proof.
  intros Hp. unfold holders, live_proxies. simpl.
  pose proof (tally_insert (live m) _ p pr pr' Hp). lia.
Qed.

Lemma holders_lock_call m m' w :
  holders m {| m_state := m_state w; awaitables := awaitables w ++ [lock_call m'];
               proxies := proxies w |} = holders m w.
Proof.
  unfold holders, live_proxies. simpl. rewrite tally_app. simpl.
  unfold pending at 2. simpl. rewrite andb_false_r. lia.
Qed.

Lemma lookup_snoc_inv {A} (l : list A) (x y : A) i :
  (l ++ [x]) !! i = Some y → l !! i = Some y ∨ y = x.
Proof.
  intros H. destruct (decide (i < length l)%nat) as [Hlt|Hge].
  - left. by rewrite lookup_app_l in H.
  - right. rewrite lookup_app_r in H by lia.
    destruct (i - length l)%nat; simpl in H; [congruence | discriminate].
Qed.

Lemma lookup_insert_inv {A} (l : list A) (x y : A) i j :
  <[i := x]> l !! j = Some y → l !! j = Some y ∨ y = x.
Proof.
  intros H. destruct (decide (i = j)) as [->|Hne].
  - right. destruct (decide (j < length l)%nat) as [Hlt|Hge].
    + rewrite list_lookup_insert_eq in H by done. congruence.
    + rewrite list_insert_ge in H by lia.
      apply lookup_lt_Some in H. lia.
  - left. by rewrite list_lookup_insert_ne in H.
Qed.

(** The invariant holds when the resource is created. *)
Lemma lock_inv_create : lock_inv create.
Proof.
  split; simpl.
  - unfold Atomic.in_int, Atomic.INT_MIN, Atomic.INT_MAX. lia.
  - left. by compute.
  - intros p pr H. discriminate.
  - intros t a H. discriminate.
Qed.

(** Every event that is not a move construction keeps the invariant. *)
Lemma step_lock_inv e w w' :
  is_move e = false → lock_inv w → step e w = Some w' → lock_inv w'.
Proof.
  intros Hmv [Hrange Hstate Hprox Haw] Hstep.
  destruct e as [m | t | p | p]; simpl in Hstep; try discriminate.
  - (* LockCall *)
    injection Hstep as <-. split; simpl; try done.
    + by rewrite !holders_lock_call.
    + intros t a Ht Hpc. apply lookup_snoc_inv in Ht as [Ht| ->]; [eauto | done].
  - (* Run *)
    destruct (awaitables w !! t) as [a|] eqn:Ht; [|discriminate].
    pose proof (holders_run Shared w t a) as HS.
    pose proof (holders_run Unique w t a) as HU.
    pose proof (holders_resume Shared w t a) as HSr.
    pose proof (holders_resume Unique w t a) as HUr.
    unfold run_awaitable in Hstep.
    destruct a as [am ag apc]. simpl in Hstep.
    destruct apc as [c | c current | c |]; try discriminate.
    + (* entering try_lock *)
      destruct am, ag; try discriminate.
      * (* shared: load *)
        injection Hstep as <-.
        specialize (HS (set_pc {| a_mode := Shared; guarded := the_guarded; a_pc := Calling c |}
                          (Loaded c (SharedLockAwaitable_try_lock_load (m_state w))))
                       (m_state w) Ht).
        specialize (HU (set_pc {| a_mode := Shared; guarded := the_guarded; a_pc := Calling c |}
                          (Loaded c (SharedLockAwaitable_try_lock_load (m_state w))))
                       (m_state w) Ht).
        split; simpl; try done.
        -- unfold pending in HS, HU. simpl in HS, HU. lia.
        -- intros t' a' Ht' Hpc. apply lookup_insert_inv in Ht' as [Ht'| ->]; [eauto | done].
      * (* unique: compare-and-swap from 0 *)
        unfold UniqueLockAwaitable_try_lock, Atomic.compare_exchange_strong in Hstep.
        destruct (m_state w =? 0) eqn:Hz; injection Hstep as <-.
        -- apply Z.eqb_eq in Hz.
           specialize (HS (set_pc {| a_mode := Unique; guarded := the_guarded; a_pc := Calling c |}
                             (after_try_lock c true)) (-1) Ht).
           specialize (HU (set_pc {| a_mode := Unique; guarded := the_guarded; a_pc := Calling c |}
                             (after_try_lock c true)) (-1) Ht).
           split; simpl.
           ++ unfold Atomic.in_int, Atomic.INT_MIN, Atomic.INT_MAX. lia.
           ++ unfold pending in HS, HU. simpl in HS, HU. right. lia.
           ++ done.
           ++ intros t' a' Ht' Hpc. apply lookup_insert_inv in Ht' as [Ht'| ->]; [eauto | done].
        -- specialize (HS (set_pc {| a_mode := Unique; guarded := the_guarded; a_pc := Calling c |}
                             (after_try_lock c false)) (m_state w) Ht).
           specialize (HU (set_pc {| a_mode := Unique; guarded := the_guarded; a_pc := Calling c |}
                             (after_try_lock c false)) (m_state w) Ht).
           split; simpl; try done.
           ++ unfold pending in HS, HU. simpl in HS, HU. lia.
           ++ intros t' a' Ht' Hpc. apply lookup_insert_inv in Ht' as [Ht'| ->]; [eauto | done].
    + (* shared: test and compare-and-swap *)
      destruct am, ag; try discriminate.
      unfold SharedLockAwaitable_try_lock_cas in Hstep.
      destruct (0 <=? current) eqn:Hge.
      * destruct (Atomic.int_add current 1) as [desired|] eqn:Hadd; [|discriminate].
        apply int_add_Some in Hadd as [-> Hin].
        unfold Atomic.compare_exchange_strong in Hstep.
        apply Z.leb_le in Hge.
        destruct (m_state w =? current) eqn:Heq; injection Hstep as <-.
        -- apply Z.eqb_eq in Heq.
           specialize (HS (set_pc {| a_mode := Shared; guarded := the_guarded; a_pc := Loaded c current |}
                             (after_try_lock c true)) (current + 1) Ht).
           specialize (HU (set_pc {| a_mode := Shared; guarded := the_guarded; a_pc := Loaded c current |}
                             (after_try_lock c true)) (current + 1) Ht).
           split; simpl; try done.
           ++ unfold pending in HS, HU. simpl in HS, HU. left. lia.
           ++ intros t' a' Ht' Hpc. apply lookup_insert_inv in Ht' as [Ht'| ->]; [eauto | done].
        -- specialize (HS (set_pc {| a_mode := Shared; guarded := the_guarded; a_pc := Loaded c current |}
                             (after_try_lock c false)) (m_state w) Ht).
           specialize (HU (set_pc {| a_mode := Shared; guarded := the_guarded; a_pc := Loaded c current |}
                             (after_try_lock c false)) (m_state w) Ht).
           split; simpl; try done.
           ++ unfold pending in HS, HU. simpl in HS, HU. lia.
           ++ intros t' a' Ht' Hpc. apply lookup_insert_inv in Ht' as [Ht'| ->]; [eauto | done].
      * injection Hstep as <-.
        specialize (HS (set_pc {| a_mode := Shared; guarded := the_guarded; a_pc := Loaded c current |}
                          (after_try_lock c false)) (m_state w) Ht).
        specialize (HU (set_pc {| a_mode := Shared; guarded := the_guarded; a_pc := Loaded c current |}
                          (after_try_lock c false)) (m_state w) Ht).
        split; simpl; try done.
        -- unfold pending in HS, HU. simpl in HS, HU. lia.
        -- intros t' a' Ht' Hpc. apply lookup_insert_inv in Ht' as [Ht'| ->]; [eauto | done].
    + (* await_resume *)
      assert (ag = the_guarded) as -> by (by apply (Haw t _ Ht)).
      assert (Hstep' : w' = {| m_state := m_state w;
                 awaitables := <[t := {| a_mode := am; guarded := null; a_pc := Resumed |}]> (awaitables w);
                 proxies := proxies w ++ [{| p_mode := am; m_guarded := the_guarded; p_alive := true |}] |}).
      { destruct am; simpl in Hstep; congruence. }
      subst w'. clear Hstep.
      specialize (HSr {| a_mode := am; guarded := null; a_pc := Resumed |}
                      {| p_mode := am; m_guarded := the_guarded; p_alive := true |} Ht).
      specialize (HUr {| a_mode := am; guarded := null; a_pc := Resumed |}
                      {| p_mode := am; m_guarded := the_guarded; p_alive := true |} Ht).
      split; simpl; try done.
      * unfold pending, live in HSr, HUr. simpl in HSr, HUr.
        destruct am; simpl in HSr, HUr; lia.
      * intros p pr Hp. apply lookup_snoc_inv in Hp as [Hp| ->]; [eauto | done].
      * intros t' a' Ht' Hpc. apply lookup_insert_inv in Ht' as [Ht'| ->]; [eauto | done].
  - (* Destroy *)
    destruct (proxies w !! p) as [pr|] eqn:Hp; [|discriminate].
    destruct (p_alive pr) eqn:Halive; [|discriminate].
    injection Hstep as <-.
    pose proof (Hprox p pr Hp) as Hg.
    pose proof (holders_destroy Shared w p pr (end_lifetime pr) (proxy_dtor pr (m_state w)) Hp) as HS.
    pose proof (holders_destroy Unique w p pr (end_lifetime pr) (proxy_dtor pr (m_state w)) Hp) as HU.
    unfold live, end_lifetime in HS, HU. simpl in HS, HU.
    rewrite Halive, !andb_false_r, !andb_true_r in HS, HU.
    unfold proxy_dtor in *. destruct pr as [pm pg pa]. simpl in *. subst pg.
    destruct pm; simpl in *.
    + (* ~SharedProxy *)
      assert (Hst : holders Unique w = 0%nat ∧ m_state w = Z.of_nat (holders Shared w)).
      { destruct Hstate as [?|[_ [H0 _]]]; [done | lia]. }
      destruct Hst as [HU0 Hst].
      assert (Hw : Atomic.wrap_int (m_state w - 1) = m_state w - 1).
      { apply wrap_int_id. unfold Atomic.in_int, Atomic.INT_MIN, Atomic.INT_MAX in *. lia. }
      unfold end_lifetime, Atomic.fetch_sub. simpl. rewrite Hw in *.
      split; simpl.
      * unfold Atomic.in_int, Atomic.INT_MIN, Atomic.INT_MAX in *. lia.
      * left. lia.
      * intros p' pr' Hp'. apply lookup_insert_inv in Hp' as [Hp'| ->]; [eauto | done].
      * done.
    + (* ~UniqueProxy *)
      assert (Hst : holders Unique w = 1%nat ∧ holders Shared w = 0%nat).
      { destruct Hstate as [[H0 _]|[H1 [H0 _]]]; [lia | done]. }
      unfold end_lifetime, Atomic.store in *. simpl.
      split; simpl.
      * unfold Atomic.in_int, Atomic.INT_MIN, Atomic.INT_MAX. lia.
      * left. lia.
      * intros p' pr' Hp'. apply lookup_insert_inv in Hp' as [Hp'| ->]; [eauto | done].
      * done.
Qed.

Lemma run_lock_inv tr : ∀ w w',
  acquire_release_only tr → lock_inv w → run tr w = Some w' → lock_inv w'.
Proof.
  induction tr as [|e tr IH]; intros w w' Htr Hinv Hrun; simpl in Hrun.
  - by injection Hrun as <-.
  - apply Forall_cons in Htr as [He Htr].
    destruct (step e w) as [w1|] eqn:Hstep; [|discriminate].
    eapply IH; [done | | done]. by eapply step_lock_inv.
Qed.

Lemma reachable_lock_inv tr w :
  acquire_release_only tr → run tr create = Some w → lock_inv w.
Proof. intros Htr Hrun. eapply run_lock_inv; [done | apply lock_inv_create | done]. Qed.

Lemma live_le_holders m w : (live_proxies m w ≤ holders m w)%nat.
Proof. unfold holders. lia. Qed.

Lemma quiescent_no_holders m w : quiescent w → holders m w = 0%nat.
Proof.
  intros [Hp Ha]. unfold holders, live_proxies.
  rewrite (tally_none (pending m)), (tally_none (live m)); [done | |].
  - intros p pr Hl. unfold live. rewrite (Hp p pr Hl). apply andb_false_r.
  - intros t a Hl. unfold pending. rewrite (Ha t a Hl). apply andb_false_r.
Qed.

(** C2. Under every interleaving of acquisition attempts and releases, a
    live [UniqueProxy] never coexists with another live proxy: among the
    proxy objects of a reachable world, one that is alive and unique is the
    only one alive.  Moreover a unique [try_lock] returns [true] only by
    swapping [m_state] from 0 to -1, and a shared [try_lock] returns [true]
    only when the value it had read is [>= 0] and is swapped to that value
    plus one. *)
Theorem C2_mutual_exclusion tr w :
  acquire_release_only tr →
  run tr create = Some w →
  (∀ p q pr qr,
      p ≠ q →
      proxies w !! p = Some pr → proxies w !! q = Some qr →
      p_alive pr = true → p_alive qr = true →
      p_mode pr = Unique → False) ∧
  (∀ t a w',
      awaitables w !! t = Some a → a_mode a = Unique →
      try_lock_result (Run t) w = Some true →
      step (Run t) w = Some w' →
      m_state w = 0 ∧ m_state w' = -1) ∧
  (∀ t a w',
      awaitables w !! t = Some a → a_mode a = Shared →
      try_lock_result (Run t) w = Some true →
      step (Run t) w = Some w' →
      ∃ c current, a_pc a = Loaded c current ∧ 0 <= current ∧
                   m_state w = current ∧ m_state w' = current + 1).
Proof.
  intros Htr Hrun. pose proof (reachable_lock_inv tr w Htr Hrun) as [_ Hstate _ _].
  split; [|split].
  - intros p q pr qr Hpq Hp Hq Hap Haq Hmode.
    pose proof (live_le_holders Unique w) as HleU.
    pose proof (live_le_holders Shared w) as HleS.
    unfold live_proxies in *.
    destruct (p_mode qr) eqn:Hmq.
    + (* a live shared proxy next to the unique one *)
      assert (1 ≤ tally (live Unique) (proxies w))%nat.
      { apply (tally_lookup _ _ p pr Hp). unfold live. by rewrite Hmode, Hap. }
      assert (1 ≤ tally (live Shared) (proxies w))%nat.
      { apply (tally_lookup _ _ q qr Hq). unfold live. by rewrite Hmq, Haq. }
      lia.
    + (* a second live unique proxy *)
      assert (2 ≤ tally (live Unique) (proxies w))%nat.
      { apply (tally_lookup2 _ _ p q pr qr Hpq Hp Hq); unfold live.
        - by rewrite Hmode, Hap.
        - by rewrite Hmq, Haq. }
      lia.
  - intros t a w' Ht Hm Hres Hstep. simpl in Hres, Hstep. rewrite Ht in Hres, Hstep.
    unfold run_awaitable in Hstep.
    destruct a as [am ag apc]. simpl in *. subst am.
    destruct apc as [c | c current | c |], ag; try discriminate.
    unfold UniqueLockAwaitable_try_lock, Atomic.compare_exchange_strong in *.
    destruct (m_state w =? 0) eqn:Hz; simpl in Hres; [|discriminate].
    apply Z.eqb_eq in Hz. injection Hstep as <-. by simpl.
  - intros t a w' Ht Hm Hres Hstep. simpl in Hres, Hstep. rewrite Ht in Hres, Hstep.
    unfold run_awaitable in Hstep.
    destruct a as [am ag apc]. simpl in *. subst am.
    destruct apc as [c | c current | c |], ag; try discriminate.
    exists c, current.
    unfold SharedLockAwaitable_try_lock_cas in *.
    destruct (0 <=? current) eqn:Hge; [|discriminate].
    destruct (Atomic.int_add current 1) as [desired|] eqn:Hadd; [|discriminate].
    apply int_add_Some in Hadd as [-> _].
    unfold Atomic.compare_exchange_strong in *.
    destruct (m_state w =? current) eqn:Heq; [|discriminate].
    apply Z.eqb_eq in Heq. apply Z.leb_le in Hge.
    injection Hstep as <-. by simpl.
Qed.

(** C2 at a run where a writer waits for a reader and then acquires. *)
Lemma C2_mutual_exclusion_witness :
  ∃ w, acquire_release_only trace_reader_then_writer ∧ run trace_reader_then_writer create = Some w ∧
       live_proxies Unique w = 1%nat ∧
       ∀ p q pr qr,
         p ≠ q →
         proxies w !! p = Some pr → proxies w !! q = Some qr →
         p_alive pr = true → p_alive qr = true →
         p_mode pr = Unique → False.
Proof.
  eexists. split; [|split; [|split]].
  - repeat constructor.
  - reflexivity.
  - reflexivity.
  - apply (C2_mutual_exclusion trace_reader_then_writer); [repeat constructor | reflexivity].
Defined.

(** C8. In every world reached by acquisitions and releases, destroying a
    live [SharedProxy] is defined and leaves [m_state] smaller by exactly
    one, destroying a live [UniqueProxy] leaves it at zero; and once every
    proxy has been dropped (no acquisition being half-way to its proxy),
    [m_state] is 0. *)
Theorem C8_release_and_quiescence tr w :
  acquire_release_only tr →
  run tr create = Some w →
  (∀ p pr,
      proxies w !! p = Some pr → p_alive pr = true →
      ∃ w', step (Destroy p) w = Some w' ∧
            m_state w' = match p_mode pr with
                         | Shared => m_state w - 1
                         | Unique => 0
                         end) ∧
  (quiescent w → m_state w = 0).
Proof.
  intros Htr Hrun.
  pose proof (reachable_lock_inv tr w Htr Hrun) as [Hrange Hstate Hprox _].
  split.
  - intros p pr Hp Halive. simpl. rewrite Hp, Halive. eexists. split; [done|].
    simpl. unfold proxy_dtor. rewrite (Hprox p pr Hp).
    destruct (p_mode pr) eqn:Hm; simpl; [|done].
    apply wrap_int_id.
    assert (1 ≤ live_proxies Shared w)%nat.
    { apply (tally_lookup _ _ p pr Hp). unfold live. by rewrite Hm, Halive. }
    pose proof (live_le_holders Shared w).
    unfold Atomic.in_int, Atomic.INT_MIN, Atomic.INT_MAX in *.
    destruct Hstate as [[_ Hs]|[_ [Hs _]]]; lia.
  - intros Hq.
    pose proof (quiescent_no_holders Shared w Hq).
    pose proof (quiescent_no_holders Unique w Hq).
    destruct Hstate as [[_ Hs]|[Hu _]]; lia.
Qed.

(** C8 at a run of two readers that acquire and then drop their proxies. *)
Lemma C8_release_and_quiescence_witness :
  ∃ w w1 w2,
    acquire_release_only trace_two_readers ∧ run trace_two_readers create = Some w ∧
    m_state w = 2 ∧
    step (Destroy 0) w = Some w1 ∧ m_state w1 = 1 ∧
    step (Destroy 1) w1 = Some w2 ∧ quiescent w2 ∧ m_state w2 = 0.
Proof.
  assert (Htr : acquire_release_only trace_two_readers) by repeat constructor.
  assert (Htr2 : acquire_release_only (trace_two_readers ++ [Destroy 0; Destroy 1]%nat))
    by repeat constructor.
  do 3 eexists.
  split; [exact Htr|]. split; [reflexivity|]. split; [reflexivity|].
  split; [reflexivity|]. split; [reflexivity|]. split; [reflexivity|].
  assert (Hq : quiescent
    {| m_state := 0;
       awaitables := [ {| a_mode := Shared; guarded := null; a_pc := Resumed |};
                       {| a_mode := Shared; guarded := null; a_pc := Resumed |} ];
       proxies := [ {| p_mode := Shared; m_guarded := the_guarded; p_alive := false |};
                    {| p_mode := Shared; m_guarded := the_guarded; p_alive := false |} ] |}).
  { split.
    - intros [|[|p]] pr H; simpl in H; try discriminate; by injection H as <-.
    - intros [|[|t]] a H; simpl in H; try discriminate; by injection H as <-. }
  split; [exact Hq|].
  exact (proj2 (C8_release_and_quiescence _ _ Htr2 eq_refl) Hq).
Defined.

(** C10. A call of [try_lock] that returns [false] leaves [m_state] as it
    was at the failing comparison and builds no proxy; a shared call fails
    only when the value read is negative or differs from the content at the
    swap, a unique call only when the content is not 0; and any run of
    waiting tasks (new lock calls, loads, failing attempts) leaves
    [m_state] and the proxies unchanged. *)
Theorem C10_failed_attempt_frame :
  (∀ e w w',
      try_lock_result e w = Some false → step e w = Some w' →
      m_state w' = m_state w ∧ proxies w' = proxies w) ∧
  (∀ current st st',
      SharedLockAwaitable_try_lock_cas current st = Some (false, st') →
      (current < 0 ∨ st ≠ current) ∧ st' = st) ∧
  (∀ st st',
      UniqueLockAwaitable_try_lock st = (false, st') → st ≠ 0 ∧ st' = st) ∧
  (∀ tr w w',
      waiters_only tr w → run tr w = Some w' →
      m_state w' = m_state w ∧ proxies w' = proxies w).
Proof.
  assert (Hshared : ∀ current st st',
      SharedLockAwaitable_try_lock_cas current st = Some (false, st') →
      (current < 0 ∨ st ≠ current) ∧ st' = st).
  { intros current st st'. unfold SharedLockAwaitable_try_lock_cas.
    destruct (0 <=? current) eqn:Hge.
    - destruct (Atomic.int_add current 1) as [d|]; [|discriminate].
      unfold Atomic.compare_exchange_strong.
      destruct (st =? current) eqn:Heq; intros [= <-].
      apply Z.eqb_neq in Heq. auto.
    - intros [= <-]. apply Z.leb_gt in Hge. auto. }
  assert (Hunique : ∀ st st',
      UniqueLockAwaitable_try_lock st = (false, st') → st ≠ 0 ∧ st' = st).
  { intros st st'. unfold UniqueLockAwaitable_try_lock, Atomic.compare_exchange_strong.
    destruct (st =? 0) eqn:Heq; intros [= <-].
    apply Z.eqb_neq in Heq. auto. }
  assert (Hstep : ∀ e w w',
      try_lock_result e w = Some false → step e w = Some w' →
      m_state w' = m_state w ∧ proxies w' = proxies w).
  { intros e w w' Hres Hstep.
    destruct e as [m | t | p | p]; simpl in Hres; try discriminate.
    simpl in Hstep.
    destruct (awaitables w !! t) as [a|] eqn:Ht; [|discriminate].
    unfold run_awaitable in Hstep. destruct a as [am ag apc]. simpl in *.
    destruct apc as [c | c current | c |], am, ag; try discriminate.
    - destruct (UniqueLockAwaitable_try_lock (m_state w)) as [ok st'] eqn:Hu.
      simpl in Hres. injection Hres as ->.
      apply Hunique in Hu as [_ ->]. injection Hstep as <-. by simpl.
    - destruct (SharedLockAwaitable_try_lock_cas current (m_state w))
        as [[ok st']|] eqn:Hs; [|discriminate].
      injection Hres as ->.
      apply Hshared in Hs as [_ ->]. injection Hstep as <-. by simpl. }
  split; [exact Hstep|]. split; [exact Hshared|]. split; [exact Hunique|].
  induction tr as [|e tr IH]; intros w w' Hw Hrun; simpl in *.
  - by injection Hrun as <-.
  - destruct Hw as [He Hw].
    destruct (step e w) as [w1|] eqn:Hs; [|discriminate].
    destruct (IH w1 w' Hw Hrun) as [-> ->].
    unfold waiting_event in He.
    destruct e as [m | t | p | p]; try discriminate.
    + simpl in Hs. injection Hs as <-. by simpl.
    + apply orb_true_iff in He as [Hl|Hf].
      * simpl in Hl, Hs.
        destruct (awaitables w !! t) as [a|] eqn:Ht; [|discriminate].
        unfold run_awaitable in Hs. destruct a as [am ag apc]. simpl in *.
        destruct apc as [c | c current | c |], am, ag; try discriminate.
        injection Hs as <-. by simpl.
      * destruct (try_lock_result (Run t) w) as [[|]|] eqn:Hr; try discriminate.
        by apply (Hstep _ _ _ Hr Hs).
Qed.

(** C10 at a run where a reader and a second writer keep failing while a
    writer holds the lock. *)
Lemma C10_failed_attempt_frame_witness :
  ∃ w w',
    run trace_writer_holds create = Some w ∧ m_state w = -1 ∧
    waiters_only [LockCall Shared; Run 1; Run 1; Run 1; Run 1;
                  LockCall Unique; Run 2; Run 2]%nat w ∧
    run [LockCall Shared; Run 1; Run 1; Run 1; Run 1;
         LockCall Unique; Run 2; Run 2]%nat w = Some w' ∧
    m_state w' = m_state w ∧ proxies w' = proxies w.
Proof.
  do 2 eexists. split; [reflexivity|]. split; [reflexivity|].
  assert (Hw : waiters_only [LockCall Shared; Run 1; Run 1; Run 1; Run 1;
                             LockCall Unique; Run 2; Run 2]%nat
    {| m_state := -1;
       awaitables := [ {| a_mode := Unique; guarded := null; a_pc := Resumed |} ];
       proxies := [ {| p_mode := Unique; m_guarded := the_guarded; p_alive := true |} ] |}).
  { simpl. repeat split. }
  split; [exact Hw|]. split; [reflexivity|].
  exact (proj2 (proj2 (proj2 C10_failed_attempt_frame)) _ _ _ Hw eq_refl).
Defined.

(** C3 as stated fails.  Two readers have both read 0; the second one
    swaps 0 for 1; the first one then runs its only compare-and-swap, which
    fails because of that concurrent change: its [try_lock] returns [false]
    and the task goes on to queue [spin], although [m_state] is 1, which is
    [>= 0].  Nothing was retried inside the attempt. *)
Lemma C3_counterexample :
  ∃ w w',
    run trace_racing_readers create = Some w ∧
    awaitables w !! 0%nat =
      Some {| a_mode := Shared; guarded := the_guarded;
              a_pc := Loaded in_await_ready 0 |} ∧
    m_state w = 1 ∧
    try_lock_result (Run 0) w = Some false ∧
    step (Run 0) w = Some w' ∧
    awaitables w' !! 0%nat =
      Some {| a_mode := Shared; guarded := the_guarded; a_pc := Calling in_spin |} ∧
    0 <= m_state w'.
Proof.
  do 2 eexists.
  do 6 (split; [reflexivity|]).
  vm_compute. discriminate.
Qed.

(** C3, amended.  A single shared attempt is one load followed by one test
    and at most one compare-and-swap.  The load leaves [m_state] alone and
    remembers the value read.  The second step returns [true] exactly when
    the value read is [>= 0] and [m_state] still holds it, and then
    [m_state] becomes that value plus one; in every other case (a negative
    value read, or a swap that fails because of a concurrent change) it
    returns [false] at once and leaves [m_state] as it is.  After a [false]
    the awaitable is back at the start of a new attempt, run by the queued
    [spin]. *)
Theorem C3_single_read_single_swap w t a c w' :
  awaitables w !! t = Some a →
  a_mode a = Shared →
  step (Run t) w = Some w' →
  (a_pc a = Calling c →
     try_lock_result (Run t) w = None ∧
     m_state w' = m_state w ∧
     awaitables w' !! t = Some (set_pc a (Loaded c (m_state w)))) ∧
  (∀ current, a_pc a = Loaded c current →
     ∃ ok, try_lock_result (Run t) w = Some ok ∧
           (ok = true ↔ 0 <= current ∧ m_state w = current) ∧
           m_state w' = (if ok then current + 1 else m_state w) ∧
           awaitables w' !! t =
             Some (set_pc a (if ok then Locked c else Calling in_spin))).
Proof.
  intros Ht Hm Hstep. simpl in Hstep. rewrite Ht in Hstep.
  pose proof (lookup_lt_Some _ _ _ Ht) as Hlt.
  unfold run_awaitable in Hstep. simpl. rewrite Ht.
  destruct a as [am ag apc]. simpl in *. subst am.
  split.
  - intros ->. destruct ag; [discriminate|]. injection Hstep as <-. simpl.
    split; [done|]. split; [done|]. by rewrite list_lookup_insert_eq.
  - intros current ->. destruct ag; [discriminate|].
    unfold SharedLockAwaitable_try_lock_cas in *.
    destruct (0 <=? current) eqn:Hge.
    + destruct (Atomic.int_add current 1) as [d|] eqn:Hadd; [|discriminate].
      apply int_add_Some in Hadd as [-> _].
      unfold Atomic.compare_exchange_strong in *.
      apply Z.leb_le in Hge.
      destruct (m_state w =? current) eqn:Heq; injection Hstep as <-; simpl.
      * apply Z.eqb_eq in Heq. exists true.
        split; [done|]. split; [done|]. split; [done|].
        by rewrite list_lookup_insert_eq.
      * apply Z.eqb_neq in Heq. exists false.
        split; [done|]. split; [split; [done | tauto]|]. split; [done|].
        by rewrite list_lookup_insert_eq.
    + injection Hstep as <-. simpl. apply Z.leb_gt in Hge. exists false.
      split; [done|]. split; [split; [done | intros [? _]; lia]|]. split; [done|].
      by rewrite list_lookup_insert_eq.
Qed.

(** C3, amended, at the racing readers: the swap of the first reader fails. *)
Lemma C3_single_read_single_swap_witness :
  let a := {| a_mode := Shared; guarded := the_guarded;
              a_pc := Loaded in_await_ready 0 |} in
  let w := {| m_state := 1;
              awaitables := [ a; {| a_mode := Shared; guarded := the_guarded;
                                    a_pc := Locked in_await_ready |} ];
              proxies := [] |} in
  run trace_racing_readers create = Some w ∧
  ∃ w', step (Run 0) w = Some w' ∧
    ∃ ok, try_lock_result (Run 0) w = Some ok ∧
          (ok = true ↔ 0 <= 0 ∧ m_state w = 0) ∧
          m_state w' = (if ok then 0 + 1 else m_state w) ∧
          awaitables w' !! 0%nat =
            Some (set_pc a (if ok then Locked in_await_ready else Calling in_spin)).
Proof.
  intros a w. split; [reflexivity|].
  eexists. split; [reflexivity|].
  exact (proj2 (C3_single_read_single_swap w 0%nat a in_await_ready _
                  eq_refl eq_refl eq_refl) 0 eq_refl).
Defined.

(** Without move constructions every acquisition is released once: along
    a trace of acquisition attempts and releases, the successful calls of
    [try_lock] are as many as the releasing destructors plus the holders
    still there. *)
Lemma step_balance e w w' :
  is_move e = false → lock_inv w → step e w = Some w' →
  (b2n (acquiring e w) + (holders Shared w + holders Unique w)
   = b2n (releasing e w) + (holders Shared w' + holders Unique w'))%nat.
Proof.
  intros Hmv [_ _ Hprox Haw] Hstep.
  destruct e as [m | t | p | p]; try discriminate.
  - simpl in Hstep. injection Hstep as <-.
    rewrite !holders_lock_call. by compute.
  - unfold acquiring, releasing. simpl in *.
    destruct (awaitables w !! t) as [a|] eqn:Ht; [|discriminate].
    unfold run_awaitable in Hstep. destruct a as [am ag apc]. simpl in *.
    destruct apc as [c | c current | c |]; try discriminate.
    + destruct am, ag; try discriminate.
      * injection Hstep as <-.
        pose proof (holders_run Shared w t _ (set_pc {| a_mode := Shared; guarded := the_guarded; a_pc := Calling c |}
                      (Loaded c (SharedLockAwaitable_try_lock_load (m_state w)))) (m_state w) Ht) as HS.
        pose proof (holders_run Unique w t _ (set_pc {| a_mode := Shared; guarded := the_guarded; a_pc := Calling c |}
                      (Loaded c (SharedLockAwaitable_try_lock_load (m_state w)))) (m_state w) Ht) as HU.
        unfold pending in HS, HU. simpl in *. lia.
      * destruct (UniqueLockAwaitable_try_lock (m_state w)) as [ok st'].
        injection Hstep as <-.
        pose proof (holders_run Shared w t _ (set_pc {| a_mode := Unique; guarded := the_guarded; a_pc := Calling c |}
                      (after_try_lock c ok)) st' Ht) as HS.
        pose proof (holders_run Unique w t _ (set_pc {| a_mode := Unique; guarded := the_guarded; a_pc := Calling c |}
                      (after_try_lock c ok)) st' Ht) as HU.
        unfold pending in HS, HU. destruct ok; simpl in *; lia.
    + destruct am, ag; try discriminate.
      destruct (SharedLockAwaitable_try_lock_cas current (m_state w)) as [[ok st']|];
        [|discriminate].
      injection Hstep as <-.
      pose proof (holders_run Shared w t _ (set_pc {| a_mode := Shared; guarded := the_guarded; a_pc := Loaded c current |}
                    (after_try_lock c ok)) st' Ht) as HS.
      pose proof (holders_run Unique w t _ (set_pc {| a_mode := Shared; guarded := the_guarded; a_pc := Loaded c current |}
                    (after_try_lock c ok)) st' Ht) as HU.
      unfold pending in HS, HU. destruct ok; simpl in *; lia.
    + injection Hstep as <-.
      pose proof (holders_resume Shared w t _ {| a_mode := am; guarded := null; a_pc := Resumed |}
                    {| p_mode := am; m_guarded := ag; p_alive := true |} Ht) as HS.
      pose proof (holders_resume Unique w t _ {| a_mode := am; guarded := null; a_pc := Resumed |}
                    {| p_mode := am; m_guarded := ag; p_alive := true |} Ht) as HU.
      unfold pending, live in HS, HU.
      destruct am, ag; simpl in *; lia.
  - unfold acquiring, releasing. simpl in *.
    destruct (proxies w !! p) as [pr|] eqn:Hp; [|discriminate].
    destruct (p_alive pr) eqn:Halive; [|discriminate].
    injection Hstep as <-. rewrite (Hprox p pr Hp). simpl.
    pose proof (holders_destroy Shared w p pr (end_lifetime pr) (proxy_dtor pr (m_state w)) Hp) as HS.
    pose proof (holders_destroy Unique w p pr (end_lifetime pr) (proxy_dtor pr (m_state w)) Hp) as HU.
    unfold live, end_lifetime in HS, HU. simpl in HS, HU.
    rewrite Halive, !andb_false_r, !andb_true_r in HS, HU.
    unfold end_lifetime. destruct (p_mode pr); simpl in *; lia.
Qed.

Lemma run_balance tr : ∀ w w',
  acquire_release_only tr → lock_inv w → run tr w = Some w' →
  (count_along acquiring tr w + (holders Shared w + holders Unique w)
   = count_along releasing tr w + (holders Shared w' + holders Unique w'))%nat.
Proof.
  induction tr as [|e tr IH]; intros w w' Htr Hinv Hrun; simpl in *.
  - by injection Hrun as <-.
  - apply Forall_cons in Htr as [He Htr].
    destruct (step e w) as [w1|] eqn:Hstep; [|discriminate].
    pose proof (step_balance e w w1 He Hinv Hstep) as Hb.
    pose proof (IH w1 w' Htr (step_lock_inv e w w1 He Hinv Hstep) Hrun) as Hr.
    unfold b2n in Hb. destruct (acquiring e w), (releasing e w); lia.
Qed.

Lemma released_once_without_moves tr w :
  acquire_release_only tr → run tr create = Some w → quiescent w →
  count_along acquiring tr create = count_along releasing tr create.
Proof.
  intros Htr Hrun Hq.
  pose proof (run_balance tr create w Htr lock_inv_create Hrun) as Hb.
  rewrite (quiescent_no_holders Shared w Hq), (quiescent_no_holders Unique w Hq) in Hb.
  change (holders Shared create) with 0%nat in Hb.
  change (holders Unique create) with 0%nat in Hb. lia.
Qed.

(** C1 fails on the code.  A proxy is not copyable, but its move
    constructor leaves the source with its pointer, so the destructors of the
    source and of the new object both release.
    - Shared: after one acquisition, one move construction and the end of
      both objects, there was one successful [try_lock] and two releasing
      destructors, and [m_state] is -1 with no proxy left.
    - Unique: the second [store(0)] frees the lock under a reader that had
      acquired in between, and a second writer then holds the lock next to
      that reader. *)
Theorem C1_moved_proxy_releases_twice :
  (∃ w, run trace_moved_shared_proxy create = Some w ∧
        count_along acquiring trace_moved_shared_proxy create = 1%nat ∧
        count_along releasing trace_moved_shared_proxy create = 2%nat ∧
        quiescent w ∧ m_state w = -1) ∧
  (∃ w, run trace_moved_unique_proxy create = Some w ∧
        proxies w !! 2%nat =
          Some {| p_mode := Shared; m_guarded := the_guarded; p_alive := true |} ∧
        proxies w !! 3%nat =
          Some {| p_mode := Unique; m_guarded := the_guarded; p_alive := true |}) ∧
  (∀ src, proxy_move_ctor src =
          ({| p_mode := p_mode src; m_guarded := m_guarded src; p_alive := true |}, src)).
Proof.
  split; [|split].
  - eexists. split; [reflexivity|]. split; [reflexivity|]. split; [reflexivity|].
    split; [|reflexivity]. split.
    + intros [|[|p]] pr H; simpl in H; try discriminate; by injection H as <-.
    + intros [|t] a H; simpl in H; try discriminate; by injection H as <-.
  - eexists. split; [reflexivity|]. split; reflexivity.
  - reflexivity.
Qed.

(** ** The continuation wrapper *)

Import IoLoop.

Lemma original_thread_index_valid a :
  io_loops a ≠ [] →
  (N.to_nat (original_thread_index a) < length (io_loops a))%nat.
Proof.
  intros Hne. unfold original_thread_index, getThreadNum, getCurrentThreadIndex.
  cbv zeta.
  destruct (N.of_nat (length (io_loops a)) <=? current_thread a)%N eqn:Hle.
  - destruct (io_loops a); [done | simpl; lia].
  - apply N.leb_gt in Hle. lia.
Qed.

Lemma queueInLoop_Some i cb a :
  (N.to_nat i < length (io_loops a))%nat →
  ∃ q, io_loops a !! N.to_nat i = Some q ∧
       queueInLoop i cb a =
         Some {| current_thread := current_thread a;
                 io_loops := <[N.to_nat i := q ++ [cb]]> (io_loops a) |}.
Proof.
  intros Hlt. destruct (lookup_lt_is_Some_2 _ _ Hlt) as [q Hq].
  exists q. split; [done|]. unfold queueInLoop. by rewrite Hq.
Qed.

(** C7. The wrapper's [await_ready] answers [false] whatever it wraps, so
    awaiting it always suspends; a lock awaitable whose [try_lock] runs
    inside [await_ready] is not suspended before, is suspended afterwards
    exactly when [try_lock] returned [false], and otherwise goes straight
    on to [await_resume]. *)
Theorem C7_suspension :
  (∀ E R (self : awaiter_value E R),
      await_ready_value self = false ∧
      Coroutine.co_await_suspends (await_ready_value self) = true) ∧
  (∀ E (self : awaiter_void E),
      await_ready_void self = false ∧
      Coroutine.co_await_suspends (await_ready_void self) = true) ∧
  (∀ w t a w' r,
      awaitables w !! t = Some a →
      (a_pc a = Calling in_await_ready ∨ ∃ current, a_pc a = Loaded in_await_ready current) →
      try_lock_result (Run t) w = Some r →
      step (Run t) w = Some w' →
      suspended (a_pc a) = false ∧
      ∃ a', awaitables w' !! t = Some a' ∧
            a_pc a' = (if r then Locked in_await_ready else Calling in_spin) ∧
            suspended (a_pc a') =
              Coroutine.co_await_suspends (LockAwaitableBase_await_ready r)).
Proof.
  split; [done|]. split; [done|].
  intros w t a w' r Ht Hpc Hres Hstep.
  pose proof (lookup_lt_Some _ _ _ Ht) as Hlt.
  simpl in Hres, Hstep. rewrite Ht in Hres, Hstep. unfold run_awaitable in Hstep.
  destruct a as [am ag apc]. simpl in *.
  destruct Hpc as [-> | [current ->]]; (split; [done|]).
  - destruct am, ag; try discriminate.
    destruct (UniqueLockAwaitable_try_lock (m_state w)) as [ok st'].
    simpl in Hres. injection Hres as ->. injection Hstep as <-. simpl.
    eexists. rewrite list_lookup_insert_eq by done. split; [done|].
    by destruct r.
  - destruct am, ag; try discriminate.
    destruct (SharedLockAwaitable_try_lock_cas current (m_state w)) as [[ok st']|];
      [|discriminate].
    injection Hres as ->. injection Hstep as <-. simpl.
    eexists. rewrite list_lookup_insert_eq by done. split; [done|].
    by destruct r.
Qed.

(** C7 at a writer whose first attempt finds a reader: it is suspended. *)
Lemma C7_suspension_witness :
  let a := {| a_mode := Unique; guarded := the_guarded; a_pc := Calling in_await_ready |} in
  let w := {| m_state := 1; awaitables := [a]; proxies := [] |} in
  ∃ w', step (Run 0) w = Some w' ∧
        suspended (a_pc a) = false ∧
        ∃ a', awaitables w' !! 0%nat = Some a' ∧
              a_pc a' = Calling in_spin ∧
              suspended (a_pc a') = true.
Proof.
  intros a w. eexists. split; [reflexivity|].
  exact (proj2 (proj2 C7_suspension) w 0%nat a _ false eq_refl (or_introl eq_refl)
           eq_refl eq_refl).
Defined.

(** C4 as stated fails for side-effect-only operations: the awaiter of a
    [void] operation resumed with its slot still [std::monostate] returns
    normally; nothing is thrown. *)
Lemma C4_counterexample :
  await_resume_void (co_await_void void_success) = returns tt ∧
  vm_result (co_await_void void_success) = vv_monostate ∧
  ∀ e, await_resume_void (co_await_void void_success) ≠ throws e.
Proof. split; [reflexivity|]. split; [reflexivity|]. intros e. discriminate. Qed.

(** C4, amended.  When the wrapped operation yields a value, resuming with
    the slot still [std::monostate] throws
    [std::runtime_error("await_resume: neither exception nor value is in
    m_result")]; when the wrapped operation is [void], the slot has no
    alternative for success, so [std::monostate] is what a success leaves
    and resuming returns normally. *)
Theorem C4_pending_slot_at_resumption (E R : Type) :
  (∀ (inner : inner_awaiter E R) (index : N),
      await_resume_value
        {| m_inner_awaiter := inner; m_original_thread_index := index;
           m_result := v_monostate |}
      = throws (runtime_error
                  "await_resume: neither exception nor value is in m_result")) ∧
  (∀ (inner : inner_awaiter E unit) (index : N),
      await_resume_void
        {| vm_inner_awaiter := inner; vm_original_thread_index := index;
           vm_result := vv_monostate |}
      = returns tt).
Proof. split; reflexivity. Qed.

(** C5 as stated fails for side-effect-only operations: when a [void]
    operation succeeds the detached lambda emplaces nothing, and the slot is
    still [std::monostate] when the task is resumed: no outcome was
    recorded. *)
Lemma C5_counterexample :
  ∃ self' a',
    await_suspend_void (co_await_void void_success) 7 app3 = Some ([], self', a') ∧
    vm_result self' = vv_monostate.
Proof. do 2 eexists. split; reflexivity. Qed.

(** C5, amended.  With at least one loop, [await_suspend] completes, and
    - for an operation that yields a value, the lambda emplaces exactly one
      alternative, the value [V] on success and the exception [E] on
      failure, and [await_resume] then returns exactly [V] or rethrows
      exactly [E];
    - for a [void] operation, the lambda emplaces the exception on failure
      and nothing on success (the slot stays [std::monostate]), and
      [await_resume] rethrows exactly that exception or returns normally.
    In both cases what [await_resume] does is what the inner operation did:
    a failure is never turned into a success nor a success into a
    failure. *)
Theorem C5_outcome_fidelity (E R : Type) (handle : nat) (a : app) :
  io_loops a ≠ [] →
  (∀ inner : inner_awaiter E R,
      ∃ writes self' a',
        await_suspend_value (co_await_value inner) handle a = Some (writes, self', a') ∧
        writes = [m_result self'] ∧
        m_result self' = match completes_with inner with
                         | returns v => v_result v
                         | throws e => v_exception_ptr e
                         end ∧
        await_resume_value self' = completes_with inner) ∧
  (∀ inner : inner_awaiter E unit,
      ∃ writes self' a',
        await_suspend_void (co_await_void inner) handle a = Some (writes, self', a') ∧
        writes = match completes_with inner with
                 | returns _ => []
                 | throws e => [vv_exception_ptr e]
                 end ∧
        vm_result self' = match completes_with inner with
                          | returns _ => vv_monostate
                          | throws e => vv_exception_ptr e
                          end ∧
        await_resume_void self' = completes_with inner).
Proof.
  intros Hne. pose proof (original_thread_index_valid a Hne) as Hlt.
  split; intros [th c].
  - unfold await_suspend_value, lambda_value. simpl.
    destruct c as [v|e]; simpl;
      destruct (queueInLoop_Some (original_thread_index a) (resume handle)
                  (hop_to th a) Hlt) as [q [_ ->]];
      do 3 eexists; (split; [reflexivity|]); done.
  - unfold await_suspend_void, lambda_void. simpl.
    destruct c as [[]|e]; simpl;
      destruct (queueInLoop_Some (original_thread_index a) (resume handle)
                  (hop_to th a) Hlt) as [q [_ ->]];
      do 3 eexists; (split; [reflexivity|]); done.
Qed.

(** C5, amended, at a failing operation with a value and at a successful
    [void] operation. *)
Lemma C5_outcome_fidelity_witness :
  io_loops app3 ≠ [] ∧
  (∃ writes self' a',
      await_suspend_value (co_await_value value_failure) 7 app3
        = Some (writes, self', a') ∧
      writes = [m_result self'] ∧
      m_result self' = v_exception_ptr (other_exception "db down"%string) ∧
      await_resume_value self' = throws (other_exception "db down"%string)) ∧
  (∃ writes self' a',
      await_suspend_void (co_await_void void_success) 7 app3
        = Some (writes, self', a') ∧
      writes = [] ∧
      vm_result self' = vv_monostate ∧
      await_resume_void self' = returns tt).
Proof.
  assert (Hne : io_loops app3 ≠ []) by discriminate.
  split; [exact Hne|]. split.
  - exact (proj1 (C5_outcome_fidelity string Z 7 app3 Hne) value_failure).
  - exact (proj2 (C5_outcome_fidelity string Z 7 app3 Hne) void_success).
Defined.

(** C6. With at least one loop, [await_suspend] stores the index of the
    current thread when it is a valid loop index and 0 otherwise, and the
    lambda appends the resumption of the suspended task to that loop's
    queue and to no other, on whatever thread the inner operation completes
    and whether it returns or throws. *)
Theorem C6_resumption_on_origin (E R : Type) (handle : nat) (a : app) :
  io_loops a ≠ [] →
  let origin :=
    if (getCurrentThreadIndex a <? getThreadNum a)%N
    then getCurrentThreadIndex a else 0%N in
  ∃ q, io_loops a !! N.to_nat origin = Some q ∧
    (∀ inner : inner_awaiter E R,
        ∃ writes self' a',
          await_suspend_value (co_await_value inner) handle a = Some (writes, self', a') ∧
          m_original_thread_index self' = origin ∧
          io_loops a' = <[N.to_nat origin := q ++ [resume handle]]> (io_loops a)) ∧
    (∀ inner : inner_awaiter E unit,
        ∃ writes self' a',
          await_suspend_void (co_await_void inner) handle a = Some (writes, self', a') ∧
          vm_original_thread_index self' = origin ∧
          io_loops a' = <[N.to_nat origin := q ++ [resume handle]]> (io_loops a)).
Proof.
  intros Hne origin.
  assert (Horigin : origin = original_thread_index a).
  { unfold origin, original_thread_index. cbv zeta.
    destruct (getCurrentThreadIndex a <? getThreadNum a)%N eqn:Hlt.
    - apply N.ltb_lt in Hlt. by rewrite (proj2 (N.leb_gt _ _) Hlt).
    - apply N.ltb_ge in Hlt. by rewrite (proj2 (N.leb_le _ _) Hlt). }
  rewrite Horigin. clear Horigin origin.
  pose proof (original_thread_index_valid a Hne) as Hlt.
  destruct (lookup_lt_is_Some_2 _ _ Hlt) as [q Hq].
  exists q. split; [done|].
  split; intros [th c].
  - unfold await_suspend_value, lambda_value. simpl.
    destruct c as [v|e]; simpl; unfold queueInLoop; simpl; rewrite Hq;
      do 3 eexists; (split; [reflexivity|]); done.
  - unfold await_suspend_void, lambda_void. simpl.
    destruct c as [[]|e]; simpl; unfold queueInLoop; simpl; rewrite Hq;
      do 3 eexists; (split; [reflexivity|]); done.
Qed.

(** C6 at a caller on loop 2 and at a caller outside every loop. *)
Lemma C6_resumption_on_origin_witness :
  (io_loops app3 ≠ [] ∧
   ∃ writes self' a',
     await_suspend_value (co_await_value value_success) 7 app3
       = Some (writes, self', a') ∧
     m_original_thread_index self' = 2%N ∧
     io_loops a' = [[]; []; [resume 4; resume 7]]) ∧
  (io_loops app3_outside ≠ [] ∧
   ∃ writes self' a',
     await_suspend_value (co_await_value value_failure) 7 app3_outside
       = Some (writes, self', a') ∧
     m_original_thread_index self' = 0%N ∧
     io_loops a' = [[resume 7]; []; [resume 4]]).
Proof.
  assert (Hne : io_loops app3 ≠ []) by discriminate.
  assert (Hne' : io_loops app3_outside ≠ []) by discriminate.
  split; (split; [done|]).
  - destruct (C6_resumption_on_origin string Z 7 app3 Hne) as [q [Hq [Hv _]]].
    injection Hq as <-. exact (Hv value_success).
  - destruct (C6_resumption_on_origin string Z 7 app3_outside Hne') as [q [Hq [Hv _]]].
    injection Hq as <-. exact (Hv value_failure).
Defined.

(** ** [isHolding] *)

Import Holding.

(** C9. [isHolding(ref)] is [true] exactly when [ref] denotes the object
    at the address of this resource's [m_data]; an object at another
    address makes it [false] even when it has the same value; and the call
    leaves the resource, its state included, as it was. *)
Theorem C9_isHolding (T : Type) (m : memory T) (a_data : address) :
  (fst (isHolding a_data m) = true ↔ a_data = addressof_m_data m) ∧
  (a_data ≠ addressof_m_data m →
   objects m !! a_data = objects m !! addressof_m_data m →
   fst (isHolding a_data m) = false) ∧
  snd (isHolding a_data m) = m.
Proof.
  unfold isHolding. simpl. split; [|split].
  - rewrite N.eqb_eq. split; congruence.
  - intros Hne _. apply N.eqb_neq. congruence.
  - reflexivity.
Qed.

(** C9 at two objects of equal value. *)
Lemma C9_isHolding_witness :
  32%N ≠ addressof_m_data memory_twins ∧
  objects memory_twins !! 32%N = objects memory_twins !! addressof_m_data memory_twins ∧
  fst (isHolding 32%N memory_twins) = false ∧
  fst (isHolding 16%N memory_twins) = true.
Proof.
  assert (Hne : 32%N ≠ addressof_m_data memory_twins) by discriminate.
  assert (Heq : objects memory_twins !! 32%N
                = objects memory_twins !! addressof_m_data memory_twins)
    by reflexivity.
  split; [exact Hne|]. split; [exact Heq|]. split.
  - exact (proj1 (proj2 (C9_isHolding Z memory_twins 32%N)) Hne Heq).
  - exact (proj2 (proj1 (C9_isHolding Z memory_twins 16%N)) eq_refl).
Defined.

(** * Further properties of the lock *)

Import Guarded Scenario.

(** ** What [m_state] means *)

(** X1. In every world reached by acquisition attempts and releases,
    [m_state] is what the comment on the member says: 0 exactly when nobody
    holds the lock, -1 exactly when one writer holds it, and a positive [n]
    exactly when [n] readers hold it and no writer; it is never below -1. *)
Theorem state_meaning tr w :
  acquire_release_only tr →
  run tr create = Some w →
  -1 <= m_state w <= Atomic.INT_MAX ∧
  (m_state w = 0 ↔ holders Shared w = 0%nat ∧ holders Unique w = 0%nat) ∧
  (m_state w = -1 ↔ holders Unique w = 1%nat ∧ holders Shared w = 0%nat) ∧
  (∀ n, 0 < n →
     (m_state w = n ↔ Z.of_nat (holders Shared w) = n ∧ holders Unique w = 0%nat)).
Proof.
  intros Htr Hrun.
  pose proof (reachable_lock_inv tr w Htr Hrun) as [Hrange Hstate _ _].
  unfold Atomic.in_int, Atomic.INT_MIN, Atomic.INT_MAX in *.
  split; [|split; [|split]].
  - destruct Hstate as [[_ Hs]|[_ [_ Hs]]]; lia.
  - destruct Hstate as [[Hu Hs]|[Hu [_ Hs]]]; lia.
  - destruct Hstate as [[Hu Hs]|[Hu [Hz Hs]]]; lia.
  - intros n Hn. destruct Hstate as [[Hu Hs]|[Hu [Hz Hs]]]; lia.
Qed.

(** X1 at the run of a reader followed by a writer that had to wait. *)
Lemma state_meaning_witness :
  ∃ w, acquire_release_only trace_reader_then_writer ∧
       run trace_reader_then_writer create = Some w ∧
       holders Unique w = 1%nat ∧ holders Shared w = 0%nat ∧ m_state w = -1.
Proof.
  assert (Htr : acquire_release_only trace_reader_then_writer) by repeat constructor.
  eexists. split; [exact Htr|]. split; [reflexivity|].
  split; [reflexivity|]. split; [reflexivity|].
  apply (proj1 (proj2 (proj2 (state_meaning _ _ Htr eq_refl)))).
  split; reflexivity.
Defined.

(** ** When an attempt succeeds *)

(** X2. In every world reached by acquisition attempts and releases, the
    [try_lock] of a writer that is about to run is defined, and it returns
    [true] exactly when nobody holds the lock: no reader, no writer, and no
    acquisition that has won and not yet built its proxy. *)
Theorem writer_acquires_iff_free tr w t a c :
  acquire_release_only tr →
  run tr create = Some w →
  awaitables w !! t = Some a →
  a_mode a = Unique →
  a_pc a = Calling c →
  (∃ w', step (Run t) w = Some w') ∧
  (try_lock_result (Run t) w = Some true ↔
   holders Shared w = 0%nat ∧ holders Unique w = 0%nat).
Proof.
  intros Htr Hrun Ht Hm Hpc.
  pose proof (reachable_lock_inv tr w Htr Hrun) as [Hrange Hstate _ Haw].
  assert (Hg : guarded a = the_guarded) by (apply (Haw t a Ht); by rewrite Hpc).
  destruct a as [am ag apc]. simpl in *. subst am ag apc.
  simpl. rewrite Ht. unfold run_awaitable. simpl.
  unfold UniqueLockAwaitable_try_lock, Atomic.compare_exchange_strong.
  destruct (m_state w =? 0) eqn:Hz; simpl.
  - apply Z.eqb_eq in Hz. split; [by eexists|].
    split; [intros _ | done].
    destruct Hstate as [[Hu Hs]|[Hu [_ Hs]]]; lia.
  - apply Z.eqb_neq in Hz. split; [by eexists|].
    split; [done|]. intros [HS HU].
    destruct Hstate as [[Hu Hs]|[Hu [_ Hs]]]; lia.
Qed.

(** X2 at a writer that arrives while a reader holds the lock. *)
Lemma writer_acquires_iff_free_witness :
  let tr := [LockCall Shared; Run 0; Run 0; Run 0; LockCall Unique]%nat in
  ∃ w, run tr create = Some w ∧
       try_lock_result (Run 1) w = Some false ∧
       ¬ (holders Shared w = 0%nat ∧ holders Unique w = 0%nat).
Proof.
  intros tr.
  assert (Htr : acquire_release_only tr) by repeat constructor.
  eexists. split; [reflexivity|]. split; [reflexivity|].
  intros H.
  pose proof (proj2 (proj2 (writer_acquires_iff_free tr _ 1%nat _ in_await_ready
                              Htr eq_refl eq_refl eq_refl eq_refl)) H) as Hres.
  discriminate Hres.
Defined.

(** X3. In every world reached by acquisition attempts and releases with
    fewer than [INT_MAX] readers, a reader's attempt that runs its load and
    its compare-and-swap with nothing in between is defined, and it returns
    [true] exactly when no writer holds the lock; it then leaves [m_state]
    larger by one. *)
Theorem reader_acquires_iff_no_writer tr w t a c :
  acquire_release_only tr →
  run tr create = Some w →
  awaitables w !! t = Some a →
  a_mode a = Shared →
  a_pc a = Calling c →
  m_state w < Atomic.INT_MAX →
  ∃ w1 w2,
    step (Run t) w = Some w1 ∧ step (Run t) w1 = Some w2 ∧
    (try_lock_result (Run t) w1 = Some true ↔ holders Unique w = 0%nat) ∧
    (holders Unique w = 0%nat → m_state w2 = m_state w + 1) ∧
    (holders Unique w ≠ 0%nat → m_state w2 = m_state w).
Proof.
  intros Htr Hrun Ht Hm Hpc Hmax.
  pose proof (reachable_lock_inv tr w Htr Hrun) as [Hrange Hstate _ Haw].
  assert (Hg : guarded a = the_guarded) by (apply (Haw t a Ht); by rewrite Hpc).
  pose proof (lookup_lt_Some _ _ _ Ht) as Hlt.
  destruct a as [am ag apc]. simpl in *. subst am ag apc.
  set (a0 := {| a_mode := Shared; guarded := the_guarded; a_pc := Calling c |}) in *.
  set (w1 := {| m_state := m_state w;
                awaitables := <[t := set_pc a0 (Loaded c (m_state w))]> (awaitables w);
                proxies := proxies w |}).
  assert (H1 : step (Run t) w = Some w1) by (simpl; by rewrite Ht).
  assert (Ht1 : awaitables w1 !! t = Some (set_pc a0 (Loaded c (m_state w))))
    by (simpl; by rewrite list_lookup_insert_eq).
  assert (Hs1 : m_state w1 = m_state w) by reflexivity.
  clearbody w1. exists w1.
  simpl in H1. rewrite H1, Ht1. unfold run_awaitable.
  simpl. rewrite Hs1.
  unfold SharedLockAwaitable_try_lock_load, Atomic.load,
    SharedLockAwaitable_try_lock_cas, Atomic.int_add, Atomic.compare_exchange_strong.
  unfold Atomic.in_int, Atomic.INT_MIN, Atomic.INT_MAX in *.
  destruct (0 <=? m_state w) eqn:Hge.
  - apply Z.leb_le in Hge.
    replace ((-2147483648 <=? m_state w + 1) && (m_state w + 1 <=? 2147483647))
      with true by (symmetry; apply andb_true_iff; split; apply Z.leb_le; lia).
    rewrite Z.eqb_refl. eexists. split; [reflexivity|]. split; [reflexivity|].
    simpl. destruct Hstate as [[Hu Hs]|[Hu [_ Hs]]]; [|lia].
    split; [done|]. split; [done|]. intros Hne. done.
  - apply Z.leb_gt in Hge.
    eexists. split; [reflexivity|]. split; [reflexivity|].
    simpl. destruct Hstate as [[Hu Hs]|[Hu [_ Hs]]]; [lia|].
    split; [split; [done | lia]|]. split; [lia | done].
Qed.

(** X3 at a reader that arrives while a writer holds the lock. *)
Lemma reader_acquires_iff_no_writer_witness :
  let tr := [LockCall Unique; Run 0; Run 0; LockCall Shared]%nat in
  ∃ w w1 w2,
    run tr create = Some w ∧ holders Unique w = 1%nat ∧
    step (Run 1) w = Some w1 ∧ step (Run 1) w1 = Some w2 ∧
    try_lock_result (Run 1) w1 = Some false ∧ m_state w2 = m_state w.
Proof.
  intros tr.
  assert (Htr : acquire_release_only tr) by repeat constructor.
  assert (Hmax : -1 < Atomic.INT_MAX) by reflexivity.
  destruct (reader_acquires_iff_no_writer tr _ 1%nat _ in_await_ready
              Htr eq_refl eq_refl eq_refl eq_refl Hmax)
    as (w1 & w2 & H1 & H2 & _ & _ & Hsame).
  eexists. exists w1, w2. split; [reflexivity|]. split; [reflexivity|].
  split; [exact H1|]. split; [exact H2|].
  split.
  - injection H1 as <-. reflexivity.
  - apply Hsame. discriminate.
Defined.

(** ** Readers in a row *)

Lemma run_app tr1 tr2 w :
  run (tr1 ++ tr2) w = match run tr1 w with
                       | Some w' => run tr2 w'
                       | None => None
                       end.
Proof.
  revert w. induction tr1 as [|e tr1 IH]; intros w; simpl; [done|].
  destruct (step e w); [apply IH | done].
Qed.

Lemma lookup_snoc_last {A} (l : list A) (x : A) : (l ++ [x]) !! length l = Some x.
Proof. induction l as [|y l IH]; simpl; [done | apply IH]. Qed.

Lemma insert_snoc_last {A} (l : list A) (x y : A) :
  <[length l := y]> (l ++ [x]) = l ++ [y].
Proof. induction l as [|z l IH]; simpl; [done | by rewrite IH]. Qed.

(** One reader on a lock that no writer holds: the call, the load, the
    compare-and-swap and [await_resume], nothing in between. *)
Lemma reader_served w :
  0 <= m_state w < Atomic.INT_MAX →
  run [LockCall Shared; Run (length (awaitables w)); Run (length (awaitables w));
       Run (length (awaitables w))] w
  = Some {| m_state := m_state w + 1;
            awaitables := awaitables w ++ [served_reader];
            proxies := proxies w ++ [reader_proxy] |}.
Proof.
  intros [Hlo Hhi]. unfold Atomic.INT_MAX in Hhi.
  destruct w as [st aws prs]. simpl in *.
  rewrite lookup_snoc_last. unfold run_awaitable. simpl.
  rewrite insert_snoc_last, lookup_snoc_last. simpl.
  unfold SharedLockAwaitable_try_lock_load, Atomic.load,
    SharedLockAwaitable_try_lock_cas, Atomic.int_add, Atomic.compare_exchange_strong,
    Atomic.INT_MIN, Atomic.INT_MAX.
  rewrite (proj2 (Z.leb_le 0 st) Hlo).
  replace ((-2147483648 <=? st + 1) && (st + 1 <=? 2147483647))
    with true by (symmetry; apply andb_true_iff; split; apply Z.leb_le; lia).
  rewrite Z.eqb_refl. simpl.
  rewrite insert_snoc_last, lookup_snoc_last. simpl.
  by rewrite insert_snoc_last.
Qed.

Lemma readers_served K : ∀ w,
  0 <= m_state w →
  m_state w + Z.of_nat K <= Atomic.INT_MAX →
  run (readers K (length (awaitables w))) w
  = Some {| m_state := m_state w + Z.of_nat K;
            awaitables := awaitables w ++ replicate K served_reader;
            proxies := proxies w ++ replicate K reader_proxy |}.
Proof.
  induction K as [|K IH]; intros w Hlo Hhi.
  - simpl. destruct w as [st aws prs]. simpl.
    by rewrite Z.add_0_r, !app_nil_r.
  - change (readers (S K) (length (awaitables w)))
      with ([LockCall Shared; Run (length (awaitables w)); Run (length (awaitables w));
             Run (length (awaitables w))] ++ readers K (S (length (awaitables w)))).
    rewrite run_app, reader_served by lia.
    set (w1 := {| m_state := m_state w + 1;
                  awaitables := awaitables w ++ [served_reader];
                  proxies := proxies w ++ [reader_proxy] |}).
    assert (Hlen : S (length (awaitables w)) = length (awaitables w1)).
    { simpl. rewrite length_app. simpl. lia. }
    rewrite Hlen, IH by (simpl; lia).
    simpl. f_equal. f_equal; [lia | |]; by rewrite <- app_assoc.
Qed.

Lemma tally_replicate {A} (f : A → bool) (x : A) K :
  f x = true → tally f (replicate K x) = K.
Proof. intros Hf. induction K as [|K IH]; simpl; [done | by rewrite Hf, IH]. Qed.

(** X4. On a fresh resource, [K] tasks that evaluate
    [co_await lock_shared()] one after the other all acquire at their first
    attempt, and hold the lock together: [m_state] is [K] and there are [K]
    live shared proxies, for every [K] up to [INT_MAX].  Beyond that there is
    no defined value: a reader that has read [INT_MAX] computes
    [current + 1]. *)
Theorem readers_all_acquire K :
  Z.of_nat K <= Atomic.INT_MAX →
  (∃ w, run (readers K 0) create = Some w ∧
        m_state w = Z.of_nat K ∧
        live_proxies Shared w = K ∧
        proxies w = replicate K reader_proxy ∧
        awaitables w = replicate K served_reader) ∧
  (∀ w t c,
      awaitables w !! t =
        Some {| a_mode := Shared; guarded := the_guarded;
                a_pc := Loaded c Atomic.INT_MAX |} →
      step (Run t) w = None).
Proof.
  intros HK. split.
  - pose proof (readers_served K create) as H. simpl in H.
    rewrite H by (done || lia). eexists. split; [reflexivity|]. simpl.
    split; [done|]. split; [|done].
    unfold live_proxies. simpl. by apply tally_replicate.
  - intros w t c Ht. simpl. by rewrite Ht.
Qed.

(** X4 at three readers, and at the reader that has read [INT_MAX]. *)
Lemma readers_all_acquire_witness :
  (∃ w, run (readers 3 0) create = Some w ∧ m_state w = 3 ∧
        live_proxies Shared w = 3%nat) ∧
  step (Run 0) world_full = None.
Proof.
  assert (H3 : Z.of_nat 3 <= Atomic.INT_MAX) by (by compute).
  destruct (readers_all_acquire 3 H3) as [(w & Hrun & Hst & Hlive & _) Hfull].
  split.
  - exists w. by repeat split.
  - exact (Hfull world_full 0%nat in_await_ready eq_refl).
Defined.

(** ** Acquisitions and releases *)

(** X5. Along every run of acquisition attempts and releases on a fresh
    resource, the calls of [try_lock] that returned [true] are as many as
    the destructors that released plus the holders that are still there; so
    when everything has been dropped, each acquisition was released exactly
    once. *)
Theorem acquisitions_balance tr w :
  acquire_release_only tr →
  run tr create = Some w →
  count_along acquiring tr create
    = (count_along releasing tr create + holders Shared w + holders Unique w)%nat ∧
  (quiescent w →
   count_along acquiring tr create = count_along releasing tr create).
Proof.
  intros Htr Hrun.
  pose proof (run_balance tr create w Htr lock_inv_create Hrun) as Hb.
  change (holders Shared create) with 0%nat in Hb.
  change (holders Unique create) with 0%nat in Hb.
  split; [lia|]. intros Hq.
  rewrite (quiescent_no_holders Shared w Hq), (quiescent_no_holders Unique w Hq) in Hb.
  lia.
Qed.

(** X5 at the reader followed by a writer: two acquisitions, one release,
    the writer still holds. *)
Lemma acquisitions_balance_witness :
  ∃ w, run trace_reader_then_writer create = Some w ∧
       count_along acquiring trace_reader_then_writer create = 2%nat ∧
       count_along releasing trace_reader_then_writer create = 1%nat ∧
       count_along acquiring trace_reader_then_writer create
         = (count_along releasing trace_reader_then_writer create
            + holders Shared w + holders Unique w)%nat.
Proof.
  assert (Htr : acquire_release_only trace_reader_then_writer) by repeat constructor.
  eexists. split; [reflexivity|]. split; [reflexivity|]. split; [reflexivity|].
  exact (proj1 (acquisitions_balance _ _ Htr eq_refl)).
Defined.

(** * The guarded data *)

Import GuardedData.

(** A live unique proxy is the only live proxy. *)
Lemma lock_inv_exclusive w p q pr qr :
  lock_inv w → p ≠ q →
  proxies w !! p = Some pr → proxies w !! q = Some qr →
  p_alive pr = true → p_alive qr = true →
  p_mode pr = Unique → False.
Proof.
  intros [_ Hstate _ _] Hpq Hp Hq Hap Haq Hmode.
  pose proof (live_le_holders Unique w) as HleU.
  pose proof (live_le_holders Shared w) as HleS.
  unfold live_proxies in *.
  assert (1 ≤ tally (live Unique) (proxies w))%nat.
  { apply (tally_lookup _ _ p pr Hp). unfold live. by rewrite Hmode, Hap. }
  destruct (p_mode qr) eqn:Hmq.
  - assert (1 ≤ tally (live Shared) (proxies w))%nat.
    { apply (tally_lookup _ _ q qr Hq). unfold live. by rewrite Hmq, Haq. }
    lia.
  - assert (2 ≤ tally (live Unique) (proxies w))%nat.
    { apply (tally_lookup2 _ _ p q pr qr Hpq Hp Hq); unfold live.
      - by rewrite Hmode, Hap.
      - by rewrite Hmq, Haq. }
    lia.
Qed.

(** A proxy object keeps its place and its flavour, and once its lifetime
    has ended it stays so. *)
Lemma step_proxy_stays e w w' p pr :
  step e w = Some w' → proxies w !! p = Some pr →
  ∃ pr', proxies w' !! p = Some pr' ∧ p_mode pr' = p_mode pr ∧
         (p_alive pr' = true → p_alive pr = true).
Proof.
  intros Hstep Hp. pose proof (lookup_lt_Some _ _ _ Hp) as Hlt.
  destruct e as [m | t | q | q]; simpl in Hstep.
  - injection Hstep as <-. simpl. by exists pr.
  - destruct (awaitables w !! t) as [a|]; [|discriminate].
    unfold run_awaitable in Hstep.
    destruct (a_pc a) as [c | c current | c |], (a_mode a), (guarded a);
      try discriminate;
      try (injection Hstep as <-; simpl; try rewrite lookup_app_l by done; by exists pr).
    + destruct (UniqueLockAwaitable_try_lock (m_state w)) as [ok st'].
      injection Hstep as <-. simpl. by exists pr.
    + destruct (SharedLockAwaitable_try_lock_cas current (m_state w)) as [[ok st']|];
        [|discriminate].
      injection Hstep as <-. simpl. by exists pr.
  - destruct (proxies w !! q) as [qr|] eqn:Hq; [|discriminate].
    destruct (p_alive qr) eqn:Haq; [|discriminate].
    injection Hstep as <-. simpl.
    destruct (decide (q = p)) as [->|Hne].
    + rewrite list_lookup_insert_eq by done. exists (end_lifetime qr).
      assert (qr = pr) as -> by congruence. by split.
    + rewrite list_lookup_insert_ne by done. by exists pr.
  - destruct (proxies w !! q) as [qr|] eqn:Hq; [|discriminate].
    destruct (p_alive qr) eqn:Haq; [|discriminate].
    injection Hstep as <-. simpl.
    rewrite lookup_app_l by (by rewrite length_insert).
    destruct (decide (q = p)) as [->|Hne].
    + rewrite list_lookup_insert_eq by done. exists qr.
      assert (qr = pr) as -> by congruence. by split.
    + rewrite list_lookup_insert_ne by done. by exists pr.
Qed.

Lemma dstep_proxy_stays {T} (e : devent T) s s' out p pr :
  dstep e s = Some (s', out) → proxies (lock s) !! p = Some pr →
  ∃ pr', proxies (lock s') !! p = Some pr' ∧ p_mode pr' = p_mode pr ∧
         (p_alive pr' = true → p_alive pr = true).
Proof.
  intros Hstep Hp. destruct e as [e | q | q v]; simpl in Hstep.
  - destruct (step e (lock s)) as [w'|] eqn:Hs; [|discriminate].
    injection Hstep as <- <-. simpl. by eapply step_proxy_stays.
  - destruct (proxies (lock s) !! q) as [qr|]; [|discriminate].
    destruct (proxy_deref qr); [|discriminate].
    injection Hstep as <- <-. by exists pr.
  - destruct (proxies (lock s) !! q) as [qr|]; [|discriminate].
    destruct (proxy_deref qr) as [[|]|]; try discriminate.
    injection Hstep as <- <-. simpl. by exists pr.
Qed.

Lemma drun_proxy_stays {T} (tr : list (devent T)) : ∀ s s' out p pr,
  drun tr s = Some (s', out) → proxies (lock s) !! p = Some pr →
  ∃ pr', proxies (lock s') !! p = Some pr' ∧ p_mode pr' = p_mode pr ∧
         (p_alive pr' = true → p_alive pr = true).
Proof.
  induction tr as [|e tr IH]; intros s s' out p pr Hrun Hp; simpl in Hrun.
  - injection Hrun as <- <-. by exists pr.
  - destruct (dstep e s) as [[s1 o1]|] eqn:Hs; [|discriminate].
    destruct (drun tr s1) as [[s2 o2]|] eqn:Hr; [|discriminate].
    injection Hrun as <- <-.
    destruct (dstep_proxy_stays e s s1 o1 p pr Hs Hp) as (pr1 & Hp1 & Hm1 & Ha1).
    destruct (IH s1 s2 o2 p pr1 Hr Hp1) as (pr2 & Hp2 & Hm2 & Ha2).
    exists pr2. split; [done|]. split; [congruence | auto].
Qed.

Lemma dstep_lock_inv {T} (e : devent T) s s' out :
  d_is_move e = false → lock_inv (lock s) → dstep e s = Some (s', out) →
  lock_inv (lock s').
Proof.
  intros Hmv Hinv Hstep. destruct e as [e | q | q v]; simpl in Hstep.
  - destruct (step e (lock s)) as [w'|] eqn:Hs; [|discriminate].
    injection Hstep as <- <-. simpl. by eapply step_lock_inv.
  - destruct (proxies (lock s) !! q) as [qr|]; [|discriminate].
    destruct (proxy_deref qr); [|discriminate].
    by injection Hstep as <- <-.
  - destruct (proxies (lock s) !! q) as [qr|]; [|discriminate].
    destruct (proxy_deref qr) as [[|]|]; try discriminate.
    by injection Hstep as <- <-.
Qed.

Lemma drun_lock_inv {T} (tr : list (devent T)) : ∀ s s' out,
  no_moves tr → lock_inv (lock s) → drun tr s = Some (s', out) →
  lock_inv (lock s').
Proof.
  induction tr as [|e tr IH]; intros s s' out Htr Hinv Hrun; simpl in Hrun.
  - by injection Hrun as <- <-.
  - apply Forall_cons in Htr as [He Htr].
    destruct (dstep e s) as [[s1 o1]|] eqn:Hs; [|discriminate].
    destruct (drun tr s1) as [[s2 o2]|] eqn:Hr; [|discriminate].
    injection Hrun as <- <-.
    eapply IH; [done | | done]. by eapply dstep_lock_inv.
Qed.

Lemma proxy_deref_Some pr a :
  proxy_deref pr = Some a →
  p_alive pr = true ∧
  a = match p_mode pr with Shared => read_only | Unique => read_write end.
Proof.
  unfold proxy_deref. destruct (p_alive pr), (m_guarded pr); try discriminate.
  intros [= <-]. done.
Qed.

(** While a shared proxy lives, nothing is assigned. *)
Lemma drun_reader_stable {T} (tr : list (devent T)) : ∀ s s' out p pr pr',
  no_moves tr → lock_inv (lock s) →
  drun tr s = Some (s', out) →
  proxies (lock s) !! p = Some pr → p_mode pr = Shared →
  proxies (lock s') !! p = Some pr' → p_alive pr' = true →
  m_data s' = m_data s ∧ Forall (λ v, v = m_data s) out.
Proof.
  induction tr as [|e tr IH]; intros s s' out p pr pr' Htr Hinv Hrun Hp Hm Hp' Ha';
    simpl in Hrun.
  - injection Hrun as <- <-. by split.
  - apply Forall_cons in Htr as [He Htr].
    destruct (dstep e s) as [[s1 o1]|] eqn:Hs; [|discriminate].
    destruct (drun tr s1) as [[s2 o2]|] eqn:Hr; [|discriminate].
    injection Hrun as <- <-.
    destruct (dstep_proxy_stays e s s1 o1 p pr Hs Hp) as (pr1 & Hp1 & Hm1 & Ha1).
    destruct (drun_proxy_stays tr s1 s2 o2 p pr1 Hr Hp1) as (pr2 & Hp2 & Hm2 & Ha2).
    assert (pr2 = pr') as -> by congruence.
    pose proof (Ha1 (Ha2 Ha')) as Ha.
    destruct (IH s1 s2 o2 p pr1 pr' Htr (dstep_lock_inv e s s1 o1 He Hinv Hs) Hr
                Hp1 ltac:(congruence) Hp' Ha') as [Hd Ho].
    destruct e as [e | q | q v]; simpl in Hs.
    + destruct (step e (lock s)) as [w'|]; [|discriminate].
      injection Hs as <- <-. simpl in *. by split.
    + destruct (proxies (lock s) !! q) as [qr|]; [|discriminate].
      destruct (proxy_deref qr); [|discriminate].
      injection Hs as <- <-. split; [done|]. simpl. by constructor.
    + destruct (proxies (lock s) !! q) as [qr|] eqn:Hq; [|discriminate].
      destruct (proxy_deref qr) as [[|]|] eqn:Hd'; try discriminate.
      apply proxy_deref_Some in Hd' as [Haq Hacc].
      destruct (p_mode qr) eqn:Hmq; [discriminate|].
      exfalso. apply (lock_inv_exclusive (lock s) q p qr pr Hinv); try done.
      intros ->. congruence.
Qed.

(** X6. On a resource used by acquisition attempts and releases, as long
    as a [SharedProxy] lives, [m_data] keeps its value: everything read in
    the meantime, through any proxy, is the value the data had when the
    period began, and nothing can be assigned. *)
Theorem reader_sees_stable_data {T} (v0 : T) tr0 s out0 tr s' out p pr pr' :
  no_moves tr0 → no_moves tr →
  drun tr0 (dcreate v0) = Some (s, out0) →
  proxies (lock s) !! p = Some pr → p_mode pr = Shared →
  drun tr s = Some (s', out) →
  proxies (lock s') !! p = Some pr' → p_alive pr' = true →
  m_data s' = m_data s ∧ Forall (λ v, v = m_data s) out.
Proof.
  intros Htr0 Htr Hrun0 Hp Hm Hrun Hp' Ha'.
  eapply drun_reader_stable; try done.
  eapply (drun_lock_inv tr0 (dcreate v0)); [done | apply lock_inv_create | done].
Qed.

(** X6 at a reader that reads before and after a writer starts to wait. *)
Lemma reader_sees_stable_data_witness :
  ∃ s s' out0,
    drun reader_reads_twice_prefix (dcreate 3) = Some (s, out0) ∧
    drun reader_reads_twice s = Some (s', [3; 3]) ∧
    m_data s' = m_data s ∧ Forall (λ v, v = m_data s) [3; 3].
Proof.
  assert (H0 : no_moves reader_reads_twice_prefix) by repeat constructor.
  assert (H1 : no_moves reader_reads_twice) by repeat constructor.
  do 3 eexists. split; [reflexivity|]. split; [reflexivity|].
  exact (reader_sees_stable_data 3 _ _ _ _ _ _ 0%nat _ _ H0 H1
           eq_refl eq_refl eq_refl eq_refl eq_refl eq_refl).
Defined.

(** While a unique proxy lives, [m_data] is reached through it only. *)
Lemma drun_writer_alone {T} (tr : list (devent T)) : ∀ s s' out p pr pr',
  no_moves tr → lock_inv (lock s) →
  drun tr s = Some (s', out) →
  proxies (lock s) !! p = Some pr → p_mode pr = Unique →
  proxies (lock s') !! p = Some pr' → p_alive pr' = true →
  Forall (through p) tr ∧ m_data s' = last_put tr (m_data s).
Proof.
  induction tr as [|e tr IH]; intros s s' out p pr pr' Htr Hinv Hrun Hp Hm Hp' Ha';
    simpl in Hrun.
  - injection Hrun as <- <-. by split.
  - apply Forall_cons in Htr as [He Htr].
    destruct (dstep e s) as [[s1 o1]|] eqn:Hs; [|discriminate].
    destruct (drun tr s1) as [[s2 o2]|] eqn:Hr; [|discriminate].
    injection Hrun as <- <-.
    destruct (dstep_proxy_stays e s s1 o1 p pr Hs Hp) as (pr1 & Hp1 & Hm1 & Ha1).
    destruct (drun_proxy_stays tr s1 s2 o2 p pr1 Hr Hp1) as (pr2 & Hp2 & Hm2 & Ha2).
    assert (pr2 = pr') as -> by congruence.
    pose proof (Ha1 (Ha2 Ha')) as Ha.
    destruct (IH s1 s2 o2 p pr1 pr' Htr (dstep_lock_inv e s s1 o1 He Hinv Hs) Hr
                Hp1 ltac:(congruence) Hp' Ha') as [Hthr Hd].
    assert (Hq : ∀ q qr acc, proxies (lock s) !! q = Some qr →
                             proxy_deref qr = Some acc → q = p).
    { intros q qr acc Hq Hacc. apply proxy_deref_Some in Hacc as [Haq _].
      destruct (decide (q = p)) as [|Hne]; [done|]. exfalso.
      apply (lock_inv_exclusive (lock s) p q pr qr Hinv); (done || congruence). }
    destruct e as [e | q | q v]; simpl in Hs.
    + destruct (step e (lock s)) as [w'|]; [|discriminate].
      injection Hs as <- <-. simpl in *. split; [by constructor | done].
    + destruct (proxies (lock s) !! q) as [qr|] eqn:Hlq; [|discriminate].
      destruct (proxy_deref qr) eqn:Hacc; [|discriminate].
      injection Hs as <- <-. split; [|done].
      constructor; [|done]. simpl. by eapply Hq.
    + destruct (proxies (lock s) !! q) as [qr|] eqn:Hlq; [|discriminate].
      destruct (proxy_deref qr) as [[|]|] eqn:Hacc; try discriminate.
      injection Hs as <- <-. simpl in *. split; [|done].
      constructor; [|done]. simpl. by eapply Hq.
Qed.

(** X7. On a resource used by acquisition attempts and releases, as long
    as a [UniqueProxy] lives, every read and every assignment of [m_data]
    goes through that proxy, and [m_data] ends up with what was assigned
    last through it (or with its old value when nothing was assigned). *)
Theorem writer_has_the_data_alone {T} (v0 : T) tr0 s out0 tr s' out p pr pr' :
  no_moves tr0 → no_moves tr →
  drun tr0 (dcreate v0) = Some (s, out0) →
  proxies (lock s) !! p = Some pr → p_mode pr = Unique →
  drun tr s = Some (s', out) →
  proxies (lock s') !! p = Some pr' → p_alive pr' = true →
  Forall (through p) tr ∧ m_data s' = last_put tr (m_data s).
Proof.
  intros Htr0 Htr Hrun0 Hp Hm Hrun Hp' Ha'.
  eapply drun_writer_alone; try done.
  eapply (drun_lock_inv tr0 (dcreate v0)); [done | apply lock_inv_create | done].
Qed.

(** X7 at a writer that assigns 5 and then 7 while a reader waits. *)
Lemma writer_has_the_data_alone_witness :
  ∃ s s' out0,
    drun writer_prefix (dcreate 3) = Some (s, out0) ∧
    drun writer_assigns s = Some (s', [7]) ∧
    Forall (through 0%nat) writer_assigns ∧ m_data s' = 7.
Proof.
  assert (H0 : no_moves writer_prefix) by repeat constructor.
  assert (H1 : no_moves writer_assigns) by repeat constructor.
  do 3 eexists. split; [reflexivity|]. split; [reflexivity|].
  exact (writer_has_the_data_alone 3 _ _ _ _ _ _ 0%nat _ _ H0 H1
           eq_refl eq_refl eq_refl eq_refl eq_refl eq_refl).
Defined.

(** * The lock awaitables on the event loops *)

Import LockLoop.

(** ** Queues *)

Lemma task_eqb_eq k k' : task_eqb k k' = true ↔ k = k'.
Proof.
  destruct k as [t|t], k' as [t'|t']; simpl; rewrite ?Nat.eqb_eq;
    split; try congruence; try discriminate.
Qed.

Lemma task_eqb_refl k : task_eqb k k = true.
Proof. by apply task_eqb_eq. Qed.

Lemma task_eqb_other k k' : task_of k ≠ task_of k' → task_eqb k k' = false.
Proof.
  intros Hne. destruct (task_eqb k k') eqn:He; [|done].
  apply task_eqb_eq in He. by subst.
Qed.

Lemma occurrences_snoc k q k' :
  occurrences k (q ++ [k']) = (occurrences k q + b2n (task_eqb k k'))%nat.
Proof.
  induction q as [|x q IH]; simpl.
  - unfold b2n. destruct (task_eqb k k'); lia.
  - rewrite IH. lia.
Qed.

Lemma occurrences_elem k q : (0 < occurrences k q)%nat ↔ k ∈ q.
Proof.
  induction q as [|x q IH]; simpl.
  - split; [lia | by intros ?%elem_of_nil].
  - rewrite elem_of_cons, <- IH.
    destruct (task_eqb k x) eqn:He.
    + apply task_eqb_eq in He. split; [by left | lia].
    + split; [intros H; right; lia | intros [->|H]; [|lia]].
      by rewrite task_eqb_refl in He.
Qed.

Lemma queued_insert k (qs : list (list task)) j q q' :
  qs !! j = Some q →
  (queued k (<[j := q']> qs) + occurrences k q = queued k qs + occurrences k q')%nat.
Proof.
  revert j. induction qs as [|x qs IH]; intros [|j] Hj; simpl in *; try discriminate.
  - injection Hj as ->. lia.
  - specialize (IH j Hj). lia.
Qed.

Lemma queued_lookup k (qs : list (list task)) j q :
  qs !! j = Some q → (occurrences k q ≤ queued k qs)%nat.
Proof.
  revert j. induction qs as [|x qs IH]; intros [|j] Hj; simpl in *; try discriminate.
  - injection Hj as ->. lia.
  - specialize (IH j Hj). lia.
Qed.

Lemma queueInLoop_queued i k qs qs' k' :
  queueInLoop i k qs = Some qs' →
  queued k' qs' = (queued k' qs + b2n (task_eqb k' k))%nat.
Proof.
  unfold queueInLoop. destruct (qs !! N.to_nat i) as [q|] eqn:Hq; [|discriminate].
  intros [= <-]. pose proof (queued_insert k' qs _ q (q ++ [k]) Hq) as H.
  rewrite occurrences_snoc in H. lia.
Qed.

Lemma queueInLoop_elem i k qs qs' j q' k' :
  queueInLoop i k qs = Some qs' →
  qs' !! j = Some q' → k' ∈ q' →
  (∃ q, qs !! j = Some q ∧ k' ∈ q) ∨ (j = N.to_nat i ∧ k' = k).
Proof.
  unfold queueInLoop. destruct (qs !! N.to_nat i) as [q|] eqn:Hq; [|discriminate].
  intros [= <-] Hj Hk.
  destruct (decide (N.to_nat i = j)) as [<-|Hne].
  - rewrite list_lookup_insert_eq in Hj by (by eapply lookup_lt_Some).
    injection Hj as <-. apply elem_of_app in Hk as [Hk|Hk].
    + left. by exists q.
    + right. apply list_elem_of_singleton in Hk. done.
  - rewrite list_lookup_insert_ne in Hj by done. left. by exists q'.
Qed.

Lemma dequeue_queued (qs : list (list task)) i (k : task) q k' :
  qs !! i = Some (k :: q) →
  (queued k' (<[i := q]> qs) + b2n (task_eqb k' k) = queued k' qs)%nat.
Proof.
  intros Hi. pose proof (queued_insert k' qs i _ q Hi) as H. simpl in H.
  unfold b2n. destruct (task_eqb k' k); lia.
Qed.

Lemma dequeue_elem (qs : list (list task)) i (k : task) q j q' (k' : task) :
  qs !! i = Some (k :: q) →
  <[i := q]> qs !! j = Some q' → k' ∈ q' →
  ∃ q0, qs !! j = Some q0 ∧ k' ∈ q0.
Proof.
  intros Hi Hj Hk. destruct (decide (i = j)) as [<-|Hne].
  - rewrite list_lookup_insert_eq in Hj by (by eapply lookup_lt_Some).
    injection Hj as <-. exists (k :: q). split; [done|]. by right.
  - rewrite list_lookup_insert_ne in Hj by done. by exists q'.
Qed.

(** ** What a step of an awaitable does to the awaitables *)

Lemma step_Run_awaitables t w w' a :
  awaitables w !! t = Some a → step (Run t) w = Some w' →
  ∃ a', awaitables w' = <[t := a']> (awaitables w) ∧
    match a_pc a with
    | Calling c =>
        match try_lock_result (Run t) w with
        | None => ∃ current, a_pc a' = Loaded c current
        | Some ok => a_pc a' = after_try_lock c ok
        end
    | Loaded c _ =>
        ∃ ok, try_lock_result (Run t) w = Some ok ∧ a_pc a' = after_try_lock c ok
    | Locked _ => try_lock_result (Run t) w = None ∧ a_pc a' = Resumed
    | Resumed => False
    end.
Proof.
  intros Ht Hstep. simpl in *. rewrite Ht in *. unfold run_awaitable in Hstep.
  destruct a as [am ag apc]. simpl in *.
  destruct apc as [c | c current | c |]; try discriminate.
  - destruct am, ag; try discriminate.
    + injection Hstep as <-. simpl. eexists. split; [done|]. by eexists.
    + destruct (UniqueLockAwaitable_try_lock (m_state w)) as [ok st'].
      injection Hstep as <-. simpl. eexists. split; done.
  - destruct am, ag; try discriminate.
    destruct (SharedLockAwaitable_try_lock_cas current (m_state w)) as [[ok st']|];
      [|discriminate].
    injection Hstep as <-. simpl. eexists. split; [done|]. by exists ok.
  - injection Hstep as <-. simpl. eexists. split; [done|].
    split; [|done]. by destruct am, ag.
Qed.

(** ** The invariant of the queues *)

Lemma sched_inv_start n : sched_inv (start n).
Proof.
  split; simpl; try done.
  intros j q k Hj Hk. apply lookup_replicate in Hj as [-> _].
  by apply elem_of_nil in Hk.
Qed.

Lemma sched_inv_update s w' qs' t a a' r r' :
  sched_inv s →
  awaitables (lk s) !! t = Some a →
  running s !! t = Some r →
  awaitables w' = <[t := a']> (awaitables (lk s)) →
  (∀ k, task_of k ≠ t → queued k qs' = queued k (queues s)) →
  queued (spin t) qs' = b2n (awaits_spin a' r') →
  queued (resume t) qs' = b2n (awaits_resume a') →
  running_fits a' r' →
  (∀ i h, r' = Some i → home s !! t = Some h → i = h) →
  (∀ j q k, qs' !! j = Some q → k ∈ q → home s !! task_of k = Some (N.of_nat j)) →
  sched_inv (update s w' qs' t r').
Proof.
  intros [Hlr Hlh Htasks Hthread Hqueue] Ha Hr Hw' Hother Hspin Hresume Hfits Hth Hq.
  pose proof (lookup_lt_Some _ _ _ Ha) as Hlta.
  pose proof (lookup_lt_Some _ _ _ Hr) as Hltr.
  unfold update. split; simpl.
  - by rewrite Hw', !length_insert.
  - by rewrite Hw', length_insert.
  - intros t0 a0 r0 Ha0 Hr0. rewrite Hw' in Ha0.
    destruct (decide (t = t0)) as [<-|Hne].
    + rewrite list_lookup_insert_eq in Ha0 by done.
      rewrite list_lookup_insert_eq in Hr0 by done.
      injection Ha0 as <-. injection Hr0 as <-. done.
    + rewrite list_lookup_insert_ne in Ha0 by done.
      rewrite list_lookup_insert_ne in Hr0 by done.
      rewrite (Hother (spin t0)), (Hother (resume t0)) by (simpl; congruence).
      by apply Htasks.
  - intros t0 i h Hr0 Hh.
    destruct (decide (t = t0)) as [<-|Hne].
    + rewrite list_lookup_insert_eq in Hr0 by done. injection Hr0 as ->.
      by eapply Hth.
    + rewrite list_lookup_insert_ne in Hr0 by done. by eapply Hthread.
  - done.
Qed.

Lemma sched_inv_with_lock s w' :
  sched_inv s → awaitables w' = awaitables (lk s) → sched_inv (with_lock s w').
Proof.
  intros [Hlr Hlh Htasks Hthread Hqueue] Hw'.
  split; simpl; rewrite ?Hw'; done.
Qed.

Lemma step_Destroy_awaitables p w w' :
  step (Destroy p) w = Some w' → awaitables w' = awaitables w.
Proof.
  simpl. destruct (proxies w !! p) as [pr|]; [|discriminate].
  destruct (p_alive pr); [|discriminate]. by intros [= <-].
Qed.

Lemma step_Move_awaitables p w w' :
  step (MoveConstruct p) w = Some w' → awaitables w' = awaitables w.
Proof.
  simpl. destruct (proxies w !! p) as [pr|]; [|discriminate].
  destruct (p_alive pr); [|discriminate]. by intros [= <-].
Qed.

Lemma sched_inv_home s t i :
  sched_inv s → running s !! t = Some (Some i) → home s !! t = Some i.
Proof.
  intros [Hlr Hlh _ Hthread _] Hr.
  pose proof (lookup_lt_Some _ _ _ Hr) as Hlt.
  destruct (lookup_lt_is_Some_2 (home s) t) as [h Hh]; [lia|].
  by rewrite Hh, (Hthread t i h Hr Hh).
Qed.

(** The return of [try_lock]: what is queued and where. *)
Lemma sched_inv_try_lock_done s w' t a a' i c ok qs' :
  sched_inv s →
  awaitables (lk s) !! t = Some a →
  running s !! t = Some (Some i) →
  awaitables w' = <[t := a']> (awaitables (lk s)) →
  awaits_resume a = false →
  a_pc a' = after_try_lock c ok →
  match c, ok with
  | in_await_ready, true => None
  | in_await_ready, false => Some (spin t)
  | in_spin, true => Some (resume t)
  | in_spin, false => Some (spin t)
  end = Some (match a_pc a' with Locked _ => resume t | _ => spin t end) →
  queueInLoop i (match a_pc a' with Locked _ => resume t | _ => spin t end) (queues s)
    = Some qs' →
  sched_inv (update s w' qs' t None).
Proof.
  intros Hinv Ha Hr Hw' Hnores Hpc Hk Hq.
  pose proof (sched_inv_home s t i Hinv Hr) as Hhome.
  destruct (si_tasks s Hinv t a (Some i) Ha Hr) as (Hsp & Hre & _).
  assert (Hsp0 : queued (spin t) (queues s) = 0%nat).
  { rewrite Hsp. unfold awaits_spin. by destruct (a_pc a) as [[]| | |]. }
  assert (Hre0 : queued (resume t) (queues s) = 0%nat) by (by rewrite Hre, Hnores).
  eapply (sched_inv_update s w' qs' t a a' (Some i) None); try done.
  - intros k Hk'. rewrite (queueInLoop_queued _ _ _ _ k Hq).
    rewrite task_eqb_other; [simpl; lia|].
    by destruct (a_pc a') as [| | |].
  - rewrite (queueInLoop_queued _ _ _ _ (spin t) Hq), Hsp0.
    unfold awaits_spin. rewrite Hpc in *.
    destruct c, ok; simpl in *; try discriminate; by rewrite ?Nat.eqb_refl.
  - rewrite (queueInLoop_queued _ _ _ _ (resume t) Hq), Hre0.
    unfold awaits_resume. rewrite Hpc in *.
    destruct c, ok; simpl in *; try discriminate; by rewrite ?Nat.eqb_refl.
  - unfold running_fits. rewrite Hpc in *.
    destruct c, ok; simpl in *; try discriminate; done.
  - intros j q k Hj Hkq.
    destruct (queueInLoop_elem _ _ _ _ _ _ _ Hq Hj Hkq) as [(q0 & Hq0 & Hk0)|[-> ->]].
    + by eapply (si_queue s Hinv).
    + rewrite N2Nat.id. by destruct (a_pc a') as [| | |].
Qed.

Lemma sched_inv_running_on s w' t a a' i :
  sched_inv s →
  awaitables (lk s) !! t = Some a →
  running s !! t = Some (Some i) →
  awaitables w' = <[t := a']> (awaitables (lk s)) →
  awaits_resume a = false →
  (∃ current, a_pc a' = Loaded in_await_ready current) ∨
  (∃ current, a_pc a' = Loaded in_spin current) ∨
  a_pc a' = Locked in_await_ready →
  sched_inv (update s w' (queues s) t (Some i)).
Proof.
  intros Hinv Ha Hr Hw' Hnores Hpc.
  pose proof (sched_inv_home s t i Hinv Hr) as Hhome.
  destruct (si_tasks s Hinv t a (Some i) Ha Hr) as (Hsp & Hre & _).
  assert (Hsp0 : queued (spin t) (queues s) = 0%nat).
  { rewrite Hsp. unfold awaits_spin. by destruct (a_pc a) as [[]| | |]. }
  assert (Hre0 : queued (resume t) (queues s) = 0%nat) by (by rewrite Hre, Hnores).
  eapply (sched_inv_update s w' (queues s) t a a' (Some i) (Some i)); try done.
  - rewrite Hsp0. unfold awaits_spin. by destruct (a_pc a') as [[]| | |].
  - rewrite Hre0. unfold awaits_resume.
    destruct Hpc as [[cur ->]|[[cur ->]| ->]]; done.
  - unfold running_fits. destruct Hpc as [[cur ->]|[[cur ->]| ->]]; done.
  - intros i0 h [= <-] Hh. congruence.
  - apply (si_queue s Hinv).
Qed.

Lemma exec_sched_inv t s s' :
  sched_inv s → exec t s = Some s' → sched_inv s'.
Proof.
  intros Hinv Hexec. unfold exec in Hexec.
  destruct (running s !! t) as [[i|]|] eqn:Hr; try discriminate.
  destruct (awaitables (lk s) !! t) as [a|] eqn:Ha; [|discriminate].
  destruct (step (Run t) (lk s)) as [w'|] eqn:Hstep; [|discriminate].
  destruct (step_Run_awaitables t (lk s) w' a Ha Hstep) as (a' & Hw' & Hshape).
  pose proof (sched_inv_home s t i Hinv Hr) as Hhome.
  destruct (si_tasks s Hinv t a (Some i) Ha Hr) as (Hsp & Hre & Hfit).
  destruct (a_pc a) as [c | c current | c |] eqn:Hpc; try discriminate.
  - (* entering [try_lock] *)
    assert (Hnores : awaits_resume a = false) by (unfold awaits_resume; by rewrite Hpc).
    destruct (try_lock_result (Run t) (lk s)) as [ok|] eqn:Hres.
    + destruct c.
      * unfold LockAwaitableBase_await_ready in Hexec. destruct ok.
        -- injection Hexec as <-.
           eapply sched_inv_running_on; try done. right. right. by rewrite Hshape.
        -- unfold await_suspend in Hexec.
           destruct (queueInLoop i (spin t) (queues s)) as [qs'|] eqn:Hq; [|discriminate].
           injection Hexec as <-.
           eapply (sched_inv_try_lock_done s w' t a a' i in_await_ready false);
             try done; by rewrite Hshape.
      * unfold spin_tail in Hexec. destruct ok.
        -- destruct (queueInLoop i (resume t) (queues s)) as [qs'|] eqn:Hq; [|discriminate].
           injection Hexec as <-.
           eapply (sched_inv_try_lock_done s w' t a a' i in_spin true);
             try done; by rewrite Hshape.
        -- destruct (queueInLoop i (spin t) (queues s)) as [qs'|] eqn:Hq; [|discriminate].
           injection Hexec as <-.
           eapply (sched_inv_try_lock_done s w' t a a' i in_spin false);
             try done; by rewrite Hshape.
    + injection Hexec as <-. destruct Hshape as [cur Hshape].
      eapply sched_inv_running_on; try done.
      destruct c; [left | right; left]; by exists cur.
  - (* the test and the compare-and-swap of a reader *)
    assert (Hnores : awaits_resume a = false) by (unfold awaits_resume; by rewrite Hpc).
    destruct Hshape as (ok & Hres & Hshape). rewrite Hres in Hexec.
    destruct c.
    + unfold LockAwaitableBase_await_ready in Hexec. destruct ok.
      * injection Hexec as <-.
        eapply sched_inv_running_on; try done. right. right. by rewrite Hshape.
      * unfold await_suspend in Hexec.
        destruct (queueInLoop i (spin t) (queues s)) as [qs'|] eqn:Hq; [|discriminate].
        injection Hexec as <-.
        eapply (sched_inv_try_lock_done s w' t a a' i in_await_ready false);
          try done; by rewrite Hshape.
    + unfold spin_tail in Hexec. destruct ok.
      * destruct (queueInLoop i (resume t) (queues s)) as [qs'|] eqn:Hq; [|discriminate].
        injection Hexec as <-.
        eapply (sched_inv_try_lock_done s w' t a a' i in_spin true);
          try done; by rewrite Hshape.
      * destruct (queueInLoop i (spin t) (queues s)) as [qs'|] eqn:Hq; [|discriminate].
        injection Hexec as <-.
        eapply (sched_inv_try_lock_done s w' t a a' i in_spin false);
          try done; by rewrite Hshape.
  - (* [await_resume] right after [await_ready] *)
    destruct c; [|discriminate]. injection Hexec as <-.
    destruct Hshape as [_ Hshape].
    assert (Hsp0 : queued (spin t) (queues s) = 0%nat).
    { rewrite Hsp. unfold awaits_spin. by rewrite Hpc. }
    assert (Hre0 : queued (resume t) (queues s) = 0%nat).
    { rewrite Hre. unfold awaits_resume. by rewrite Hpc. }
    eapply (sched_inv_update s w' (queues s) t a a' (Some i) None); try done.
    + rewrite Hsp0. unfold awaits_spin. by rewrite Hshape.
    + rewrite Hre0. unfold awaits_resume. by rewrite Hshape.
    + unfold running_fits. by rewrite Hshape.
    + apply (si_queue s Hinv).
Qed.

Lemma queued_pos k (qs : list (list task)) :
  (0 < queued k qs)%nat → ∃ j q, qs !! j = Some q ∧ k ∈ q.
Proof.
  induction qs as [|x qs IH]; simpl; [lia|]. intros H.
  destruct (decide (0 < occurrences k x)%nat) as [Hx|Hx].
  - exists 0%nat, x. split; [done|]. by apply occurrences_elem.
  - destruct IH as (j & q & Hj & Hk); [lia|]. by exists (S j), q.
Qed.

Lemma queued_head (qs : list (list task)) i k q :
  qs !! i = Some (k :: q) → (1 ≤ queued k qs)%nat.
Proof.
  intros Hi. pose proof (queued_lookup k qs i _ Hi) as H. simpl in H.
  rewrite task_eqb_refl in H. lia.
Qed.

Lemma dequeue_sched_inv i s s' :
  sched_inv s → dequeue i s = Some s' → sched_inv s'.
Proof.
  intros Hinv Hdq. unfold dequeue in Hdq.
  destruct (queues s !! i) as [[|k q]|] eqn:Hi; try discriminate.
  assert (Hhome : home s !! task_of k = Some (N.of_nat i)).
  { apply (si_queue s Hinv i (k :: q) k Hi). by left. }
  pose proof (queued_head _ _ _ _ Hi) as Hhead.
  assert (Helem : ∀ j q' k', <[i := q]> (queues s) !! j = Some q' → k' ∈ q' →
                             home s !! task_of k' = Some (N.of_nat j)).
  { intros j q' k' Hj Hk'.
    destruct (dequeue_elem _ _ _ _ _ _ _ Hi Hj Hk') as (q0 & Hq0 & Hk0).
    by eapply (si_queue s Hinv). }
  destruct k as [t|t]; simpl in Hhome; cbv beta iota zeta in Hdq.
  - (* [spin] starts to run on the thread of the loop *)
    destruct (running s !! t) as [[|]|] eqn:Hr; try discriminate.
    injection Hdq as <-.
    pose proof (lookup_lt_Some _ _ _ Hr) as Hlt.
    destruct (lookup_lt_is_Some_2 (awaitables (lk s)) t) as [a Ha];
      [by rewrite <- (si_running s Hinv)|].
    destruct (si_tasks s Hinv t a None Ha Hr) as (Hsp & Hre & Hfit).
    assert (Hpc : a_pc a = Calling in_spin).
    { unfold awaits_spin in Hsp. destruct (a_pc a) as [[]| | |]; simpl in Hsp; (done || lia). }
    pose proof (dequeue_queued _ _ _ _ (spin t) Hi) as Hdsp.
    pose proof (dequeue_queued _ _ _ _ (resume t) Hi) as Hdre.
    simpl in Hdsp, Hdre. rewrite Nat.eqb_refl in Hdsp.
    unfold awaits_spin, awaits_resume in Hsp, Hre. rewrite Hpc in Hsp, Hre. simpl in *.
    eapply (sched_inv_update s (lk s) _ t a a None (Some (N.of_nat i))); try done.
    + by rewrite list_insert_id.
    + intros k Hk. pose proof (dequeue_queued _ _ _ _ k Hi) as Hd.
      rewrite task_eqb_other in Hd by done. simpl in Hd. lia.
    + unfold awaits_spin. rewrite Hpc. simpl. lia.
    + unfold awaits_resume. rewrite Hpc. simpl. lia.
    + unfold running_fits. by rewrite Hpc.
    + intros i0 h [= <-] Hh. congruence.
  - (* the resumption runs: [await_resume] *)
    destruct (awaitables (lk s) !! t) as [a|] eqn:Ha; [|discriminate].
    destruct (step (Run t) (lk s)) as [w'|] eqn:Hstep;
      destruct (a_pc a) as [c | c current | [] |] eqn:Hpc; try discriminate.
    injection Hdq as <-.
    destruct (step_Run_awaitables t (lk s) w' a Ha Hstep) as (a' & Hw' & Hshape).
    rewrite Hpc in Hshape. destruct Hshape as [_ Hpc'].
    pose proof (lookup_lt_Some _ _ _ Ha) as Hlt.
    destruct (lookup_lt_is_Some_2 (running s) t) as [r Hr];
      [by rewrite (si_running s Hinv)|].
    destruct (si_tasks s Hinv t a r Ha Hr) as (Hsp & Hre & Hfit).
    unfold running_fits in Hfit. rewrite Hpc in Hfit. subst r.
    unfold awaits_spin, awaits_resume in Hsp, Hre. rewrite Hpc in Hsp, Hre. simpl in *.
    pose proof (dequeue_queued _ _ _ _ (spin t) Hi) as Hdsp.
    pose proof (dequeue_queued _ _ _ _ (resume t) Hi) as Hdre.
    simpl in Hdsp, Hdre. rewrite Nat.eqb_refl in Hdre. simpl in Hdre.
    replace (running s) with (<[t := None]> (running s)) by (by apply list_insert_id).
    apply (sched_inv_update s w' _ t a a' None None); try done.
    + intros k Hk. pose proof (dequeue_queued _ _ _ _ k Hi) as Hd.
      rewrite task_eqb_other in Hd by done. simpl in Hd. lia.
    + unfold awaits_spin. rewrite Hpc'. simpl. lia.
    + unfold awaits_resume. rewrite Hpc'. simpl. lia.
    + unfold running_fits. by rewrite Hpc'.
Qed.

Lemma coawait_sched_inv m i s s' :
  sched_inv s → lstep (CoAwait m i) s = Some s' → sched_inv s'.
Proof.
  intros Hinv Hstep. simpl in Hstep. injection Hstep as <-.
  destruct Hinv as [Hlr Hlh Htasks Hthread Hqueue].
  split; simpl.
  - rewrite !length_app. simpl. lia.
  - rewrite !length_app. simpl. lia.
  - intros t a r Ha Hr.
    destruct (decide (t < length (awaitables (lk s)))%nat) as [Hlt|Hge].
    + rewrite lookup_app_l in Ha by done.
      rewrite lookup_app_l in Hr by lia. by apply Htasks.
    + rewrite lookup_app_r in Ha by lia. rewrite lookup_app_r in Hr by lia.
      rewrite Hlr in Hr.
      destruct (t - length (awaitables (lk s)))%nat as [|n] eqn:Hn; simpl in *;
        [|discriminate].
      injection Ha as <-. injection Hr as <-.
      assert (Hnone : ∀ k, task_of k = t → queued k (queues s) = 0%nat).
      { intros k Hk. destruct (queued k (queues s)) eqn:Hq0; [done|]. exfalso.
        destruct (queued_pos k (queues s)) as (j & q & Hj & Hkq); [lia|].
        pose proof (Hqueue j q k Hj Hkq) as Hh.
        apply lookup_lt_Some in Hh. lia. }
      rewrite (Hnone (spin t)), (Hnone (resume t)) by done. done.
  - intros t i0 h Hr Hh.
    destruct (decide (t < length (running s))%nat) as [Hlt|Hge].
    + rewrite lookup_app_l in Hr by done.
      rewrite lookup_app_l in Hh by lia. by eapply Hthread.
    + rewrite lookup_app_r in Hr by lia. rewrite lookup_app_r in Hh by lia.
      rewrite Hlh, <- Hlr in Hh.
      destruct (t - length (running s))%nat; simpl in *; [congruence | discriminate].
  - intros j q k Hj Hk. apply lookup_app_l_Some. by eapply Hqueue.
Qed.

Lemma lstep_sched_inv e s s' :
  sched_inv s → lstep e s = Some s' → sched_inv s'.
Proof.
  intros Hinv Hstep. destruct e as [m i | t | i | p | p].
  - by eapply coawait_sched_inv.
  - by eapply exec_sched_inv.
  - by eapply dequeue_sched_inv.
  - unfold lstep in Hstep.
    destruct (step (Destroy p) (lk s)) as [w'|] eqn:Hs; [|discriminate].
    injection Hstep as <-. apply sched_inv_with_lock; [done|].
    by eapply step_Destroy_awaitables.
  - unfold lstep in Hstep.
    destruct (step (MoveConstruct p) (lk s)) as [w'|] eqn:Hs; [|discriminate].
    injection Hstep as <-. apply sched_inv_with_lock; [done|].
    by eapply step_Move_awaitables.
Qed.

Lemma lrun_sched_inv tr : ∀ s s',
  sched_inv s → lrun tr s = Some s' → sched_inv s'.
Proof.
  induction tr as [|e tr IH]; intros s s' Hinv Hrun; simpl in Hrun.
  - by injection Hrun as <-.
  - destruct (lstep e s) as [s1|] eqn:Hs; [|discriminate].
    eapply IH; [|done]. by eapply lstep_sched_inv.
Qed.

(** ** The event loops run the interleaving semantics *)

Lemma lstep_refines e s s' :
  lstep e s = Some s' →
  ∃ tr, run tr (lk s) = Some (lk s') ∧
        (l_is_move e = false → acquire_release_only tr).
Proof.
  intros Hstep. destruct e as [m i | t | i | p | p]; unfold lstep in Hstep.
  - simpl in Hstep. injection Hstep as <-. exists [LockCall m]. split; [done|].
    intros _. by repeat constructor.
  - unfold exec in Hstep.
    destruct (running s !! t) as [[i|]|]; try discriminate.
    destruct (awaitables (lk s) !! t) as [a|] eqn:Ha; [|discriminate].
    destruct (step (Run t) (lk s)) as [w'|] eqn:Hs; [|discriminate].
    assert (Hlk : lk s' = w').
    { destruct (a_pc a) as [c | c current | [] |]; try discriminate.
      - destruct (try_lock_result (Run t) (lk s)) as [ok|].
        + destruct c.
          * destruct (LockAwaitableBase_await_ready ok).
            -- by injection Hstep as <-.
            -- destruct (await_suspend t i (queues s)); [|discriminate].
               by injection Hstep as <-.
          * destruct (spin_tail t i ok (queues s)); [|discriminate].
            by injection Hstep as <-.
        + by injection Hstep as <-.
      - destruct (try_lock_result (Run t) (lk s)) as [ok|].
        + destruct c.
          * destruct (LockAwaitableBase_await_ready ok).
            -- by injection Hstep as <-.
            -- destruct (await_suspend t i (queues s)); [|discriminate].
               by injection Hstep as <-.
          * destruct (spin_tail t i ok (queues s)); [|discriminate].
            by injection Hstep as <-.
        + by injection Hstep as <-.
      - by injection Hstep as <-. }
    exists [Run t]. split.
    + simpl in *. rewrite Hs. by rewrite Hlk.
    + intros _. by repeat constructor.
  - unfold dequeue in Hstep.
    destruct (queues s !! i) as [[|[t|t] q]|]; try discriminate.
    + destruct (running s !! t) as [[|]|]; try discriminate.
      injection Hstep as <-. exists []. split; [done|]. intros _. constructor.
    + destruct (awaitables (lk s) !! t) as [a|]; [|discriminate].
      destruct (a_pc a) as [c | c current | [] |]; try discriminate.
      destruct (step (Run t) (lk s)) as [w'|] eqn:Hs; [|discriminate].
      injection Hstep as <-. exists [Run t]. split.
      * simpl in *. by rewrite Hs.
      * intros _. by repeat constructor.
  - destruct (step (Destroy p) (lk s)) as [w'|] eqn:Hs; [|discriminate].
    injection Hstep as <-. exists [Destroy p]. split.
    + simpl in *. by rewrite Hs.
    + intros _. by repeat constructor.
  - destruct (step (MoveConstruct p) (lk s)) as [w'|] eqn:Hs; [|discriminate].
    injection Hstep as <-. exists [MoveConstruct p]. split.
    + simpl in *. by rewrite Hs.
    + discriminate.
Qed.

Lemma lrun_refines tr : ∀ s s',
  lrun tr s = Some s' →
  ∃ tr', run tr' (lk s) = Some (lk s') ∧
         (l_no_moves tr → acquire_release_only tr').
Proof.
  induction tr as [|e tr IH]; intros s s' Hrun; simpl in Hrun.
  - injection Hrun as <-. exists []. split; [done|]. intros _. constructor.
  - destruct (lstep e s) as [s1|] eqn:Hs; [|discriminate].
    destruct (lstep_refines e s s1 Hs) as (tr1 & Hr1 & Hm1).
    destruct (IH s1 s' Hrun) as (tr2 & Hr2 & Hm2).
    exists (tr1 ++ tr2). split.
    + by rewrite run_app, Hr1.
    + intros Hnm. apply Forall_cons in Hnm as [He Hnm].
      apply Forall_app. split; [by apply Hm1 | by apply Hm2].
Qed.

(** X8. The lock driven by the event loops ([await_ready], then
    [await_suspend] and [spin] through the queues) does nothing the
    interleaving semantics does not do: every run on the loops is a run of
    acquisition attempts and releases of the lock.  In particular, when no
    proxy is move-constructed, a live [UniqueProxy] is the only live proxy
    at every moment of every such run. *)
Theorem loops_run_the_lock n ltr s :
  lrun ltr (start n) = Some s →
  (∃ tr, run tr create = Some (lk s) ∧
         (l_no_moves ltr → acquire_release_only tr)) ∧
  (l_no_moves ltr →
   ∀ p q pr qr,
     p ≠ q →
     proxies (lk s) !! p = Some pr → proxies (lk s) !! q = Some qr →
     p_alive pr = true → p_alive qr = true →
     p_mode pr = Unique → False).
Proof.
  intros Hrun. destruct (lrun_refines ltr (start n) s Hrun) as (tr & Htr & Hnm).
  split; [by exists tr|].
  intros Hno p q pr qr. apply lock_inv_exclusive.
  by apply (reachable_lock_inv tr (lk s) (Hnm Hno)).
Qed.

(** X8 at the writer that waits on loop 0 for the reader of loop 1. *)
Lemma loops_run_the_lock_witness :
  ∃ s, lrun writer_waits_on_loop (start 2) = Some s ∧
       m_state (lk s) = -1 ∧
       ∃ tr, run tr create = Some (lk s) ∧
             (l_no_moves writer_waits_on_loop → acquire_release_only tr).
Proof.
  destruct (lrun writer_waits_on_loop (start 2)) as [s|] eqn:Hrun;
    [|by vm_compute in Hrun].
  exists s. split; [reflexivity|]. split.
  - vm_compute in Hrun. by injection Hrun as <-.
  - exact (proj1 (loops_run_the_lock 2 writer_waits_on_loop s Hrun)).
Defined.

(** X9. In every run on the loops, each awaitable has at most one callback
    queued, all loops together.  A task that is suspended and still waits
    for the lock has exactly one [spin] queued unless a thread is inside its
    [spin]; a task that is suspended and has won the lock has exactly one
    resumption queued; a task that was never suspended, or has been resumed,
    or has a thread inside its [await_ready] or [spin], has none. *)
Theorem one_callback_per_waiter n ltr s t a r :
  lrun ltr (start n) = Some s →
  awaitables (lk s) !! t = Some a →
  running s !! t = Some r →
  (queued (spin t) (queues s) + queued (resume t) (queues s) ≤ 1)%nat ∧
  (a_pc a = Calling in_spin → r = None →
   queued (spin t) (queues s) = 1%nat ∧ queued (resume t) (queues s) = 0%nat) ∧
  (a_pc a = Locked in_spin →
   r = None ∧
   queued (spin t) (queues s) = 0%nat ∧ queued (resume t) (queues s) = 1%nat) ∧
  (suspended (a_pc a) = false ∨ r ≠ None →
   queued (spin t) (queues s) = 0%nat ∧ queued (resume t) (queues s) = 0%nat).
Proof.
  intros Hrun Ha Hr.
  pose proof (lrun_sched_inv ltr (start n) s (sched_inv_start n) Hrun) as Hinv.
  destruct (si_tasks s Hinv t a r Ha Hr) as (Hsp & Hre & Hfit).
  unfold awaits_spin, awaits_resume, running_fits in *.
  rewrite Hsp, Hre.
  destruct (a_pc a) as [[]|[] cur|[]|]; destruct r as [i|]; simpl in *;
    repeat split; try done; try lia; try (intuition (congruence || lia)).
Qed.

(** X9 at the suspended writer: one [spin], on loop 0. *)
Lemma one_callback_per_waiter_witness :
  ∃ s, lrun writer_suspended_on_loop (start 2) = Some s ∧
       queues s = [[spin 1]; []] ∧
       queued (spin 1) (queues s) = 1%nat ∧ queued (resume 1) (queues s) = 0%nat.
Proof.
  destruct (lrun writer_suspended_on_loop (start 2)) as [s|] eqn:Hrun;
    [|by vm_compute in Hrun].
  exists s. split; [reflexivity|].
  assert (Hs := Hrun). vm_compute in Hs. injection Hs as Hs.
  split; [by rewrite <- Hs|].
  assert (Ha : awaitables (lk s) !! 1%nat
               = Some {| a_mode := Unique; guarded := the_guarded;
                         a_pc := Calling in_spin |}) by (by rewrite <- Hs).
  assert (Hr : running s !! 1%nat = Some None) by (by rewrite <- Hs).
  exact (proj1 (proj2 (one_callback_per_waiter 2 writer_suspended_on_loop s 1%nat
                         _ None Hrun Ha Hr)) eq_refl eq_refl).
Defined.

Lemma lstep_home e s s' t h :
  lstep e s = Some s' → home s !! t = Some h → home s' !! t = Some h.
Proof.
  intros Hstep Hh. destruct e as [m i | t0 | i | p | p]; unfold lstep in Hstep.
  - simpl in Hstep. injection Hstep as <-. simpl. by apply lookup_app_l_Some.
  - unfold exec in Hstep.
    destruct (running s !! t0) as [[i|]|]; try discriminate.
    destruct (awaitables (lk s) !! t0) as [a|]; [|discriminate].
    destruct (step (Run t0) (lk s)) as [w'|]; [|discriminate].
    destruct (a_pc a) as [c | c current | [] |]; try discriminate;
      try (by injection Hstep as <-);
      (destruct (try_lock_result (Run t0) (lk s)) as [ok|];
       [destruct c;
        [destruct (LockAwaitableBase_await_ready ok);
         [by injection Hstep as <-
         |destruct (await_suspend t0 i (queues s)); [by injection Hstep as <- | discriminate]]
        |destruct (spin_tail t0 i ok (queues s)); [by injection Hstep as <- | discriminate]]
       |by injection Hstep as <-]).
  - unfold dequeue in Hstep.
    destruct (queues s !! i) as [[|[t0|t0] q]|]; try discriminate.
    + destruct (running s !! t0) as [[|]|]; try discriminate. by injection Hstep as <-.
    + destruct (awaitables (lk s) !! t0) as [a|]; [|discriminate].
      destruct (step (Run t0) (lk s)) as [w'|];
        destruct (a_pc a) as [c | c current | [] |]; try discriminate.
      by injection Hstep as <-.
  - destruct (step (Destroy p) (lk s)); [by injection Hstep as <- | discriminate].
  - destruct (step (MoveConstruct p) (lk s)); [by injection Hstep as <- | discriminate].
Qed.

Lemma lrun_home tr : ∀ s s' t h,
  lrun tr s = Some s' → home s !! t = Some h → home s' !! t = Some h.
Proof.
  induction tr as [|e tr IH]; intros s s' t h Hrun Hh; simpl in Hrun.
  - by injection Hrun as <-.
  - destruct (lstep e s) as [s1|] eqn:Hs; [|discriminate].
    eapply IH; [done|]. by eapply lstep_home.
Qed.

(** X10. A task that waits for the lock stays on its loop.  The index of
    the thread on which a task evaluates [co_await lock_...()] is kept for
    the awaitable ([home]); in every run on the loops, every callback of the
    awaitable, [spin] or resumption, is queued in the loop of that index,
    and every thread that is inside its [await_ready] or [spin] has that
    index.  So the proxy is handed to the task on the loop it was suspended
    on. *)
Theorem waiter_stays_on_its_loop n ltr s :
  lrun ltr (start n) = Some s →
  (∀ m i s1, lstep (CoAwait m i) s = Some s1 →
             home s1 !! length (awaitables (lk s)) = Some i) ∧
  (∀ tr' s' t h, lrun tr' s = Some s' → home s !! t = Some h → home s' !! t = Some h) ∧
  (∀ j q k, queues s !! j = Some q → k ∈ q →
            home s !! task_of k = Some (N.of_nat j)) ∧
  (∀ t i, running s !! t = Some (Some i) → home s !! t = Some i).
Proof.
  intros Hrun.
  pose proof (lrun_sched_inv ltr (start n) s (sched_inv_start n) Hrun) as Hinv.
  split; [|split; [|split]].
  - intros m i s1 Hs. simpl in Hs. injection Hs as <-. simpl.
    rewrite <- (si_home s Hinv). apply lookup_snoc_last.
  - intros tr' s' t h. apply lrun_home.
  - apply (si_queue s Hinv).
  - intros t i. by apply sched_inv_home.
Qed.

(** X10 at the suspended writer: it was awaited on thread 0 and its [spin]
    is in loop 0. *)
Lemma waiter_stays_on_its_loop_witness :
  ∃ s, lrun writer_suspended_on_loop (start 2) = Some s ∧
       queues s !! 0%nat = Some [spin 1] ∧
       home s !! 1%nat = Some 0%N.
Proof.
  destruct (lrun writer_suspended_on_loop (start 2)) as [s|] eqn:Hrun;
    [|by vm_compute in Hrun].
  exists s. split; [reflexivity|].
  assert (Hs := Hrun). vm_compute in Hs. injection Hs as Hs.
  assert (Hq : queues s !! 0%nat = Some [spin 1]) by (by rewrite <- Hs).
  split; [exact Hq|].
  apply (proj1 (proj2 (proj2 (waiter_stays_on_its_loop 2 writer_suspended_on_loop s Hrun)))
           0%nat [spin 1] (spin 1) Hq).
  by left.
Defined.

(** ** A re-check that finds the lock available *)





(** * [switch_to_io_loop]: from the call to the resumption *)

Import IoLoop Resumption.

Lemma run_many_prefix (q1 : list callback) : ∀ (q2 : list callback) i a,
  io_loops a !! N.to_nat i = Some (q1 ++ q2) →
  ∃ a', run_many (length q1) i a = Some (q1, a') ∧
        io_loops a' = <[N.to_nat i := q2]> (io_loops a) ∧
        (q1 = [] → a' = a).
Proof.
  induction q1 as [|cb q1 IH]; intros q2 i a Hi; simpl.
  - exists a. split; [done|]. split; [|done]. by rewrite list_insert_id.
  - unfold run_next. rewrite Hi. simpl.
    set (a1 := {| current_thread := i;
                  io_loops := <[N.to_nat i := q1 ++ q2]> (io_loops a) |}).
    assert (Hi1 : io_loops a1 !! N.to_nat i = Some (q1 ++ q2)).
    { simpl. apply list_lookup_insert_eq. by eapply lookup_lt_Some. }
    destruct (IH q2 i a1 Hi1) as (a' & Hrun & Hloops & _).
    exists a'. rewrite Hrun. split; [done|]. split; [|done].
    rewrite Hloops. simpl. by rewrite list_insert_insert_eq.
Qed.

Lemma resumed_on_spec origin (q : list callback) handle a :
  io_loops a !! N.to_nat origin = Some (q ++ [resume handle]) →
  ∃ a', resumed_on origin (length q) handle a = Some a' ∧
        current_thread a' = origin ∧
        io_loops a' = <[N.to_nat origin := []]> (io_loops a).
Proof.
  intros Hq. unfold resumed_on.
  destruct (run_many_prefix q [resume handle] origin a Hq) as (a1 & -> & Hloops & _).
  unfold run_next. rewrite Hloops.
  rewrite list_lookup_insert_eq by (by eapply lookup_lt_Some).
  rewrite Nat.eqb_refl. eexists. split; [done|]. simpl.
  split; [done|]. by rewrite list_insert_insert_eq.
Qed.

(** X11. With at least one loop, [co_await switch_to_io_loop(inner)] is
    defined for every inner operation, with or without a value: the task is
    suspended, and once the loop of the origin has run the callbacks that
    were queued before, it runs the resumption; the expression then yields
    exactly what the inner operation did, and the task goes on on the thread
    of the origin loop, which is the thread it was suspended on whenever
    that was a loop thread, and loop 0 otherwise, on whatever thread the
    inner operation completed. *)
Theorem switch_to_io_loop_round_trip (E R : Type) (handle : nat) (a : app) :
  io_loops a ≠ [] →
  let origin :=
    if (getCurrentThreadIndex a <? getThreadNum a)%N
    then getCurrentThreadIndex a else 0%N in
  (∀ inner : inner_awaiter E R,
      ∃ a', co_await_value_expr inner handle a = Some (completes_with inner, a') ∧
            getCurrentThreadIndex a' = origin ∧
            io_loops a' = <[N.to_nat origin := []]> (io_loops a)) ∧
  (∀ inner : inner_awaiter E unit,
      ∃ a', co_await_void_expr inner handle a = Some (completes_with inner, a') ∧
            getCurrentThreadIndex a' = origin ∧
            io_loops a' = <[N.to_nat origin := []]> (io_loops a)).
Proof.
  intros Hne origin.
  assert (Horigin : origin = original_thread_index a).
  { unfold origin, original_thread_index. cbv zeta.
    destruct (getCurrentThreadIndex a <? getThreadNum a)%N eqn:Hlt.
    - apply N.ltb_lt in Hlt. by rewrite (proj2 (N.leb_gt _ _) Hlt).
    - apply N.ltb_ge in Hlt. by rewrite (proj2 (N.leb_le _ _) Hlt). }
  rewrite Horigin. clear Horigin origin.
  pose proof (original_thread_index_valid a Hne) as Hlt.
  destruct (lookup_lt_is_Some_2 _ _ Hlt) as [q Hq].
  assert (Hres : ∀ th,
    ∃ a', resumed_on (original_thread_index a) (length q) handle
            {| current_thread := th;
               io_loops := <[N.to_nat (original_thread_index a) := q ++ [resume handle]]>
                             (io_loops a) |} = Some a' ∧
          current_thread a' = original_thread_index a ∧
          io_loops a' = <[N.to_nat (original_thread_index a) := []]> (io_loops a)).
  { intros th.
    edestruct (resumed_on_spec (original_thread_index a) q handle) as (a' & Hr & Hc & Hl);
      [|exists a'; split; [exact Hr|]; split; [exact Hc|]].
    - simpl. by apply list_lookup_insert_eq.
    - rewrite Hl. simpl. by rewrite list_insert_insert_eq. }
  split; intros [th c].
  - unfold co_await_value_expr, operator_co_await_value, switch_to_io_loop,
      await_suspend_value, lambda_value. simpl.
    destruct (Hres th) as (a' & Hr & Hc & Hl).
    destruct c as [v|e]; simpl; unfold queueInLoop; simpl; rewrite Hq; simpl;
      rewrite Hq, Hr; by exists a'.
  - unfold co_await_void_expr, operator_co_await_void, switch_to_io_loop,
      await_suspend_void, lambda_void. simpl.
    destruct (Hres th) as (a' & Hr & Hc & Hl).
    destruct c as [[]|e]; simpl; unfold queueInLoop; simpl; rewrite Hq; simpl;
      rewrite Hq, Hr; by exists a'.
Qed.

(** X11 at a caller on loop 2, whose queue holds a callback already, and an
    operation that fails on thread 9. *)
Lemma switch_to_io_loop_round_trip_witness :
  io_loops app3 ≠ [] ∧
  ∃ a', co_await_value_expr value_failure 7 app3
          = Some (throws (other_exception "db down"%string), a') ∧
        getCurrentThreadIndex a' = 2%N ∧
        io_loops a' = [[]; []; []].
Proof.
  assert (Hne : io_loops app3 ≠ []) by discriminate.
  split; [exact Hne|].
  exact (proj1 (switch_to_io_loop_round_trip string Z 7 app3 Hne) value_failure).
Defined.
